(** * Voice Typing Assistant: text normalisation and the listening session

    A shallow embedding of [main.py]: the two text transforms [punctuate]
    and [auto_capitalise] (regular-expression rewrites over Python strings)
    and the listening loop with its shared [is_listening] flag.

    Text is a list of characters.  A character is a Rocq [ascii], read as
    the code point of the same number (U+0000 to U+00FF).  Classification
    ([str.isspace], the [\s] and [\w] classes of [re]) follows CPython on
    that range.  [str.upper] is modelled per character; the three code
    points of the range whose upper-case form is not one character of the
    range (U+00B5, U+00DF, U+00FF) are left as they are, so a sentence that
    starts with one of them is outside what the embedding covers: the
    theorems that rest on [upper] assume [upper_faithful], which excludes
    exactly those texts. *)

From Stdlib Require Import Ascii String List Bool Arith Lia.
Import ListNotations.

Definition text := list ascii.

(** A string literal as a [text]. *)
Definition str (s : string) : text := list_ascii_of_string s.

(* ------------------------------------------------------------------ *)
(** ** Character classes *)

Definition code (c : ascii) : nat := nat_of_ascii c.

Definition between (lo hi n : nat) : bool := (lo <=? n) && (n <=? hi).

(** [str.isspace], which is also the [\s] class and what [str.strip]
    removes: TAB..CR, FS..US, space, NEL and NBSP. *)
Definition isspace (c : ascii) : bool :=
  let n := code c in
  between 9 13 n || between 28 32 n || (n =? 133) || (n =? 160).

(** Alphanumeric in the sense of [re]: alphabetic, decimal, digit or
    numeric. *)
Definition isalnum (c : ascii) : bool :=
  let n := code c in
  between 48 57 n || between 65 90 n || between 97 122 n
  || (n =? 170) || (n =? 178) || (n =? 179) || (n =? 181)
  || (n =? 185) || (n =? 186) || between 188 190 n
  || between 192 214 n || between 216 246 n || between 248 255 n.

(** The [\w] class. *)
Definition is_word (c : ascii) : bool := isalnum c || (code c =? 95).

(** Lower-case form of one character, as [re.IGNORECASE] uses it. *)
Definition lower (c : ascii) : ascii :=
  let n := code c in
  if between 65 90 n || between 192 214 n || between 216 222 n
  then ascii_of_nat (n + 32) else c.

(** [str.upper] on one character, where the result is one character of
    the range.  It is not for U+00B5 (whose upper-case form is U+039C),
    U+00DF (two characters, SS) and U+00FF (U+0178); [upper] returns these
    three unchanged and [upper_modelled] tells them apart. *)
Definition upper (c : ascii) : ascii :=
  let n := code c in
  if between 97 122 n || between 224 246 n || between 248 254 n
  then ascii_of_nat (n - 32) else c.

(** A literal pattern character [p] against a text character [c] under
    [re.IGNORECASE]. *)
Definition ci_eq (p c : ascii) : bool := Ascii.eqb (lower c) (lower p).

(** The class [[.?!]]. *)
Definition is_terminal (c : ascii) : bool :=
  Ascii.eqb c "." || Ascii.eqb c "?" || Ascii.eqb c "!".

(** The class [[,.!?]]. *)
Definition is_punct (c : ascii) : bool :=
  Ascii.eqb c "," || Ascii.eqb c "." || Ascii.eqb c "!" || Ascii.eqb c "?".

(* ------------------------------------------------------------------ *)
(** ** [str.strip] *)

Fixpoint lstrip (s : text) : text :=
  match s with
  | c :: s' => if isspace c then lstrip s' else s
  | [] => []
  end.

Fixpoint rstrip (s : text) : text :=
  match s with
  | c :: s' =>
      match rstrip s' with
      | [] => if isspace c then [] else [c]
      | r => c :: r
      end
  | [] => []
  end.

Definition strip (s : text) : text := rstrip (lstrip s).

(* ------------------------------------------------------------------ *)
(** ** [re.sub] for patterns that never match the empty string *)

(** One match: what replaces it, the last character it consumed and the
    text after it. *)
Record hit := Hit { repl : text; last_char : ascii; rest : text }.

(** A pattern anchored at the current position.  It sees the character
    before the position (for [\b]) and the text from the position on. *)
Definition matcher := option ascii -> text -> option hit.

(** Leftmost, non-overlapping matches from left to right: at each
    position either the pattern matches and the scan resumes after the
    match, or one character is copied.  [fuel] bounds the number of
    positions visited. *)
Fixpoint re_sub_from (m : matcher) (fuel : nat) (prev : option ascii)
  (s : text) : text :=
  match fuel, s with
  | S fuel', c :: s' =>
      match m prev s with
      | Some h => repl h ++ re_sub_from m fuel' (Some (last_char h)) (rest h)
      | None => c :: re_sub_from m fuel' (Some c) s'
      end
  | _, _ => []
  end.

Definition re_sub (m : matcher) (s : text) : text :=
  re_sub_from m (length s) None s.

(** *** The patterns *)

Definition word_at (o : option ascii) : bool :=
  match o with
  | Some c => is_word c
  | None => false
  end.

(** [\b] between the character before and the character at a position. *)
Definition word_boundary (before after : option ascii) : bool :=
  xorb (word_at before) (word_at after).

(** A literal under [re.IGNORECASE]: the last character consumed and the
    text left. *)
Fixpoint match_literal (lit : text) (last : option ascii) (s : text)
  : option (option ascii * text) :=
  match lit with
  | [] => Some (last, s)
  | p :: lit' =>
      match s with
      | c :: s' => if ci_eq p c then match_literal lit' (Some c) s' else None
      | [] => None
      end
  end.

(** [\b<kw>\b] with [re.IGNORECASE], replaced by [symbol]. *)
Definition keyword (kw : text) (symbol : ascii) : matcher :=
  fun prev s =>
    if word_boundary prev (hd_error s) then
      match match_literal kw prev s with
      | Some (Some l, r) =>
          if word_boundary (Some l) (hd_error r)
          then Some (Hit [symbol] l r) else None
      | _ => None
      end
    else None.

(** [\s*] followed by one character of class [cls]: that character and
    the text after it. *)
Fixpoint spaces_then (cls : ascii -> bool) (s : text) : option (ascii * text) :=
  match s with
  | c :: s' =>
      if cls c then Some (c, s')
      else if isspace c then spaces_then cls s' else None
  | [] => None
  end.

(** [\s+([,.!?])] replaced by [\1]. *)
Definition space_before_punct : matcher :=
  fun _ s =>
    match s with
    | c :: s' =>
        if isspace c then
          match spaces_then is_punct s' with
          | Some (p, r) => Some (Hit [p] p r)
          | None => None
          end
        else None
    | [] => None
    end.

(** The last character of a greedy [\s*] run that starts after [l]. *)
Fixpoint last_space (l : ascii) (s : text) : ascii :=
  match s with
  | c :: s' => if isspace c then last_space c s' else l
  | [] => l
  end.

(** [\s*([.?!])\s*] replaced by [\1] and one space. *)
Definition terminal_spacing : matcher :=
  fun _ s =>
    match spaces_then is_terminal s with
    | Some (t, r) => Some (Hit [t; " "%char] (last_space t r) (lstrip r))
    | None => None
    end.

(* ------------------------------------------------------------------ *)
(** ** [punctuate] *)

Definition replacements : list (text * ascii) :=
  [ (str "question mark", "?"%char);
    (str "exclamation mark", "!"%char);
    (str "comma", ","%char);
    (str "full stop", "."%char);
    (str "new line", "010"%char) ].

Definition punctuate (txt : text) : text :=
  let out :=
    fold_left (fun out r => re_sub (keyword (fst r) (snd r)) out)
              replacements txt in
  let out := re_sub space_before_punct out in
  strip out.

(* ------------------------------------------------------------------ *)
(** ** [auto_capitalise] *)

(** [re.split] on [([.?!]\s)]: the pieces between the delimiters and the
    delimiters themselves, alternating; [cur] is the piece being read. *)
Fixpoint split_from (cur : text) (s : text) : list text :=
  match s with
  | c :: s' =>
      match s' with
      | d :: s'' =>
          if is_terminal c && isspace d
          then cur :: [c; d] :: split_from [] s''
          else split_from (cur ++ [c]) s'
      | [] => split_from (cur ++ [c]) s'
      end
  | [] => [cur]
  end.

Definition re_split (s : text) : list text := split_from [] s.

(** [sent[0].upper() + sent[1:]] when [sent] is not empty. *)
Definition capitalise_first (sent : text) : text :=
  match sent with
  | c :: tl => upper c :: tl
  | [] => []
  end.

(** The loop over [range(0, len(parts), 2)]. *)
Fixpoint capitalise_parts (parts : list text) : list text :=
  match parts with
  | sent :: sep :: parts' =>
      (capitalise_first (strip sent) ++ sep) :: capitalise_parts parts'
  | [sent] => [capitalise_first (strip sent) ++ []]
  | [] => []
  end.

Definition normalise (txt : text) : text := strip (re_sub terminal_spacing txt).

Definition auto_capitalise (txt : text) : text :=
  let normalized := normalise txt in
  let parts := re_split normalized in
  strip (concat (capitalise_parts parts)).

(* ------------------------------------------------------------------ *)
(** ** The listening session *)

(** What reaches the user interface and the focused application, in the
    order the calls are made: [update_status(msg)],
    [append_output_line(line)] and [pyautogui.write(text)]. *)
Inductive event :=
| UpdateStatus (msg : string)
| AppendOutputLine (line : text)
| Write (txt : text).

(** The two check boxes, read on every pass through the loop. *)
Record config := Config { auto_punctuation : bool; auto_capital : bool }.

(** What the outside world does during one pass through the loop body:
    [recogniser.listen] raises [WaitTimeoutError]; [recognize_google]
    raises [UnknownValueError] or [RequestError]; or it returns a text and
    [pyautogui.write] then returns ([None]) or raises an exception with the
    given message. *)
Inductive outcome :=
| WaitTimeout
| UnknownValue
| RequestError
| Recognised (txt : text) (typing_error : option string).

Inductive control := Continue | Break.

Definition post_process (cfg : config) (txt : text) : text :=
  let txt := if auto_punctuation cfg then punctuate txt else txt in
  if auto_capital cfg then auto_capitalise txt else txt.

(** One pass through the body of [while is_listening]. *)
Definition loop_body (cfg : config) (o : outcome) : list event * control :=
  match o with
  | WaitTimeout => ([], Continue)
  | UnknownValue => ([UpdateStatus "Didn't catch that. Try again."], Continue)
  | RequestError =>
      ([UpdateStatus "Could not connect to speech service (check internet)."],
       Break)
  | Recognised txt typing_error =>
      match post_process cfg txt with
      | [] => ([], Continue)
      | t =>
          (AppendOutputLine t :: Write t ::
             match typing_error with
             | Some e => [UpdateStatus ("Typing failed: " ++ e)]
             | None => []
             end,
           Continue)
      end
  end.

(** Where a thread that runs [listen_and_type] is: before the loop
    (calibrating), at the loop test, or returned. *)
Inductive pc := Calibrating | Looping | Exited.

(** One step of [listen_and_type], given the value of [is_listening] that
    the loop test reads: the calibration and first status; or the loop
    test followed by one pass through the body; the status after the loop
    when the test fails or the body breaks. The function never assigns
    [is_listening].  A step is the test and the pass run without
    interruption, by a thread that has the microphone; [thread_step]
    below splits the two and has the microphone shared. *)
Definition listen_and_type (flag : bool) (p : pc) (cfg : config) (o : outcome)
  : pc * list event :=
  match p with
  | Calibrating => (Looping, [UpdateStatus "Listening... Speak now."])
  | Looping =>
      if flag then
        match loop_body cfg o with
        | (evs, Continue) => (Looping, evs)
        | (evs, Break) => (Exited, evs ++ [UpdateStatus "Stopped listening."])
        end
      else (Exited, [UpdateStatus "Stopped listening."])
  | Exited => (Exited, [])
  end.

(** The globals [is_listening] and [listening_thread], every thread ever
    started, and the events emitted so far. *)
Record state := State {
  is_listening : bool;
  listening_thread : option nat;
  threads : list pc;
  emitted : list event
}.

Definition initial : state := State false None [] [].

Definition start_listening_thread (st : state) : state :=
  if negb (is_listening st) then
    State true (Some (length (threads st))) (threads st ++ [Calibrating])
          (emitted st ++ [UpdateStatus "Started listening..."])
  else
    State (is_listening st) (listening_thread st) (threads st)
          (emitted st ++ [UpdateStatus "Already listening..."]).

Definition stop_listening (st : state) : state :=
  State false (listening_thread st) (threads st)
        (emitted st ++ [UpdateStatus "Stopping..."]).

Fixpoint set_nth {A} (n : nat) (x : A) (l : list A) : list A :=
  match l, n with
  | y :: l', 0 => x :: l'
  | y :: l', S n' => y :: set_nth n' x l'
  | [], _ => []
  end.

(** Thread [tid] takes its next step. *)
Definition run_thread (tid : nat) (cfg : config) (o : outcome) (st : state)
  : state :=
  match nth_error (threads st) tid with
  | Some p =>
      let (p', evs) := listen_and_type (is_listening st) p cfg o in
      State (is_listening st) (listening_thread st)
            (set_nth tid p' (threads st)) (emitted st ++ evs)
  | None => st
  end.

(** The two buttons and the scheduler. *)
Inductive action :=
| Start
| Stop
| Run (tid : nat) (cfg : config) (o : outcome).

Definition step (st : state) (a : action) : state :=
  match a with
  | Start => start_listening_thread st
  | Stop => stop_listening st
  | Run tid cfg o => run_thread tid cfg o st
  end.

Definition run (st : state) (acts : list action) : state :=
  fold_left step acts st.

Definition running (p : pc) : bool :=
  match p with
  | Exited => false
  | _ => true
  end.

(** The number of threads that have not returned from [listen_and_type]. *)
Definition active_loops (st : state) : nat :=
  length (filter running (threads st)).

(** A whole life of one thread: the flag value read at each step and what
    the outside world does. *)
Fixpoint thread_run (p : pc) (sched : list (bool * config * outcome))
  : pc * list event :=
  match sched with
  | (flag, cfg, o) :: sched' =>
      let (p', evs) := listen_and_type flag p cfg o in
      let (p'', evs') := thread_run p' sched' in
      (p'', evs ++ evs')
  | [] => (p, [])
  end.

Definition is_stopped (e : event) : bool :=
  match e with
  | UpdateStatus msg => String.eqb msg "Stopped listening."
  | _ => false
  end.


(* ------------------------------------------------------------------ *)
(** ** The transcript box and reading it aloud *)

Definition newline : ascii := "010"%char.

(** The callback of [append_output_line] on the content of the output
    box: [output_box.insert(tk.END, line + '\n')]. *)
Definition insert_line (box line : text) : text := box ++ line ++ [newline].

(** The content of a box that was empty after the callbacks for [lines]
    have run in order. *)
Definition box_after (lines : list text) : text :=
  fold_left insert_line lines [].

(** [read_out_loud], given what [output_box.get("1.0", tk.END)] returns:
    the text passed to [speak], if [speak] is called. *)
Definition read_out_loud (shown : text) : option text :=
  match strip shown with
  | [] => None
  | t => Some t
  end.

(* ------------------------------------------------------------------ *)
(** ** The session with the shared microphone and the pass in flight *)

(** Where a thread that runs [listen_and_type] is, told apart more
    finely: started and not yet at [with mic as source]; inside [with
    mic], about to test [while is_listening]; in the body after the test
    read [True] (in [listen], [recognize_google] or [pyautogui.write]);
    returned; or ended by the exception of [with mic]. *)
Inductive place := Spawned | AtTest | InPass | Returned | Crashed.

(** The global [is_listening]; whether the one global [mic] is inside a
    context manager ([mic.stream is not None]); every thread ever
    started; the events emitted so far. *)
Record session := Session {
  listening : bool;
  stream_open : bool;
  places : list place;
  events : list event
}.

Definition opening : session := Session false false [] [].

(** Thread [tid] moves to [p]; the microphone and the events follow. *)
Definition put (tid : nat) (p : place) (opened : bool) (evs : list event)
  (ss : session) : session :=
  Session (listening ss) opened (set_nth tid p (places ss))
          (events ss ++ evs).

(** The next step of thread [tid] in [listen_and_type].

    [with mic as source]: [sr.Microphone.__enter__] asserts that the
    source is not already inside a context manager; if another thread is
    inside, the assertion fails and the thread ends with the exception
    before its loop; otherwise the stream is opened, the noise level
    taken and the first status emitted (one step).

    The loop test reads [is_listening]; if it is clear the thread leaves
    the [with] block ([__exit__] closes the stream) and emits the last
    status.

    The body of the pass, in which the flag is not read: its events are
    emitted; on [break] the thread leaves as above. *)
Definition thread_step (tid : nat) (cfg : config) (o : outcome) (ss : session)
  : session :=
  match nth_error (places ss) tid with
  | Some Spawned =>
      if stream_open ss then put tid Crashed true [] ss
      else put tid AtTest true [UpdateStatus "Listening... Speak now."] ss
  | Some AtTest =>
      if listening ss then put tid InPass (stream_open ss) [] ss
      else put tid Returned false [UpdateStatus "Stopped listening."] ss
  | Some InPass =>
      match loop_body cfg o with
      | (evs, Continue) => put tid AtTest (stream_open ss) evs ss
      | (evs, Break) =>
          put tid Returned false
              (evs ++ [UpdateStatus "Stopped listening."]) ss
      end
  | _ => ss
  end.

(** [start_listening_thread] and [stop_listening] on a session. *)
Definition press_start (ss : session) : session :=
  if negb (listening ss) then
    Session true (stream_open ss) (places ss ++ [Spawned])
            (events ss ++ [UpdateStatus "Started listening..."])
  else
    Session (listening ss) (stream_open ss) (places ss)
            (events ss ++ [UpdateStatus "Already listening..."]).

Definition press_stop (ss : session) : session :=
  Session false (stream_open ss) (places ss)
          (events ss ++ [UpdateStatus "Stopping..."]).

Definition advance (ss : session) (a : action) : session :=
  match a with
  | Start => press_start ss
  | Stop => press_stop ss
  | Run tid cfg o => thread_step tid cfg o ss
  end.

Definition play (ss : session) (acts : list action) : session :=
  fold_left advance acts ss.

(** A thread is in its loop. *)
Definition in_loop (p : place) : bool :=
  match p with
  | AtTest | InPass => true
  | _ => false
  end.

Definition loops_active (ss : session) : nat :=
  length (filter in_loop (places ss)).
(* ------------------------------------------------------------------ *)
(** ** Notions used to state and prove the properties *)

(** How many times [Stopped listening.] occurs. *)
Definition stopped_count (evs : list event) : nat :=
  length (filter is_stopped evs).

(** Every character, for facts checked by enumeration. *)
Definition all_ascii : list ascii := map ascii_of_nat (seq 0 256).

(** The scan of [re_sub] started in the middle of a text. *)
Definition sub_at (m : matcher) (prev : option ascii) (s : text) : text :=
  re_sub_from m (length s) prev s.

(** The pattern matches at no position of [s]. *)
Fixpoint unmatched (m : matcher) (prev : option ascii) (s : text) : Prop :=
  match s with
  | c :: s' => m prev s = None /\ unmatched m (Some c) s'
  | [] => True
  end.

(** Wherever [k] matches in [s], [m] matches too. *)
Fixpoint covered (k m : matcher) (prev : option ascii) (s : text) : Prop :=
  match s with
  | c :: s' =>
      (m prev s = None -> k prev s = None) /\ covered k m (Some c) s'
  | [] => True
  end.

(** A character a spoken keyword is made of: a word character or the
    space. *)
Definition plain (c : ascii) : bool := is_word c || Ascii.eqb c " ".

(** A keyword is not empty, begins and ends with a word character and is
    made of plain characters. *)
Definition spoken (kw : text) : bool :=
  match kw with
  | c :: _ => is_word c && is_word (last kw c) && forallb plain kw
  | [] => false
  end.

(** A substitution that leaves keyword matches elsewhere alone: each
    match is a non-empty stretch of the text and is replaced by one
    character that is neither a word character nor the space; a match
    that ends in a word character is followed by none, and a match that
    follows a word character begins with none. *)
Record gentle (m : matcher) : Prop := {
  gentle_repl : forall prev s h, m prev s = Some h ->
    exists r, repl h = [r] /\ plain r = false;
  gentle_span : forall prev s h, m prev s = Some h ->
    exists u, s = u ++ [last_char h] ++ rest h;
  gentle_after : forall prev s h, m prev s = Some h ->
    is_word (last_char h) = true -> word_at (hd_error (rest h)) = false;
  gentle_before : forall prev s h, m prev s = Some h ->
    word_at prev = true -> word_at (hd_error s) = false
}.

(** The output of one scan may be read with a different character before
    it, as long as a word that starts the text sees no word character
    before it in either. *)
Definition compatible (prev prev_o : option ascii) (s : text) : Prop :=
  word_at prev_o = false -> word_at (hd_error s) = true -> word_at prev = false.

(** No white space at the beginning, at the end. *)
Definition starts_clean (s : text) : bool :=
  match s with
  | c :: _ => negb (isspace c)
  | [] => true
  end.

Fixpoint ends_clean (s : text) : bool :=
  match s with
  | [] => true
  | [c] => negb (isspace c)
  | _ :: s' => ends_clean s'
  end.

(** Every match consumes at least one character. *)
Definition consuming (m : matcher) : Prop :=
  forall prev s h, m prev s = Some h -> length (rest h) < length s.

(** What a replacement rule has to be for the argument on [punctuate]. *)
Definition rule_ok (r : text * ascii) : bool :=
  spoken (fst r) && negb (plain (snd r)).

(** No rule of [rs] matches anywhere in [s]. *)
Definition rules_unmatched (rs : list (text * ascii)) (s : text) : Prop :=
  Forall (fun r => unmatched (keyword (fst r) (snd r)) None s) rs.

(** The loop of [punctuate] over a list of rules. *)
Definition substitute_all (rs : list (text * ascii)) (txt : text) : text :=
  fold_left (fun out r => re_sub (keyword (fst r) (snd r)) out) rs txt.

(** *** The shape of a text with normal spacing *)

(** What was read just before a position: nothing special, white space
    that follows no terminal, a terminal, or the one space that follows
    a terminal. *)
Inductive ctx := Free | InSpace | AfterTerminal | AfterGap.

Definition after (c : ascii) : ctx :=
  if is_terminal c then AfterTerminal
  else if isspace c then InSpace else Free.

(** Every terminal that is not the last character is followed by one
    space and then by a character that is no white space, and white space
    stands before a terminal only as that one space. *)
Fixpoint shaped (q : ctx) (t : text) : bool :=
  match t with
  | c :: t' =>
      match q with
      | AfterTerminal => Ascii.eqb c " " && shaped AfterGap t'
      | AfterGap => negb (isspace c) && shaped (after c) t'
      | InSpace => negb (is_terminal c) && shaped (after c) t'
      | Free => shaped (after c) t'
      end
  | [] => true
  end.

(** Normal spacing, with nothing to strip at the ends. *)
Definition normal (t : text) : Prop :=
  shaped Free t = true /\ starts_clean t = true /\ ends_clean t = true.

(** What the scan for [terminal_spacing] needs of the text left, given
    what it has just written. *)
Definition fits (q : ctx) (s : text) : Prop :=
  match q with
  | Free => True
  | InSpace => spaces_then is_terminal s = None
  | AfterGap => starts_clean s = true
  | AfterTerminal => False
  end.

(** The space that [terminal_spacing] adds after a terminal at the very
    end of a text. *)
Fixpoint closing_space (s : text) : text :=
  match s with
  | [] => []
  | [c] => if is_terminal c then [" "%char] else []
  | _ :: s' => closing_space s'
  end.

(** *** Capitalisation read off the text directly *)

Inductive cap_state := SentenceStart | Inside | AfterTerm.

Definition cap_next (st : cap_state) (c : ascii) : cap_state :=
  match st with
  | AfterTerm =>
      if isspace c then SentenceStart
      else if is_terminal c then AfterTerm else Inside
  | _ => if is_terminal c then AfterTerm else Inside
  end.

Definition cap_char (st : cap_state) (c : ascii) : ascii :=
  match st with
  | SentenceStart => upper c
  | _ => c
  end.

(** Upper-case the first character and every character that follows a
    terminal and one white space character. *)
Fixpoint cap_scan (st : cap_state) (n : text) : text :=
  match n with
  | c :: n' => cap_char st c :: cap_scan (cap_next st c) n'
  | [] => []
  end.

Definition is_sentence_start (st : cap_state) : bool :=
  match st with
  | SentenceStart => true
  | _ => false
  end.

Definition is_after_term (st : cap_state) : bool :=
  match st with
  | AfterTerm => true
  | _ => false
  end.

(** Position [i] of [n] is where a sentence starts, when the text before
    [n] has left the scan in state [st]: the position follows a terminal
    and one white space character. *)
Definition starts_sentence_from (st : cap_state) (n : text) (i : nat) : bool :=
  match i with
  | 0 => is_sentence_start st
  | 1 => is_after_term st && isspace (nth 0 n " "%char)
  | S (S j) => is_terminal (nth j n " "%char) && isspace (nth (S j) n " "%char)
  end.

(** Position [i] of the whole text [n] is the first position or follows a
    terminal and one white space character. *)
Definition starts_sentence (n : text) (i : nat) : bool :=
  starts_sentence_from SentenceStart n i.

(** [t] is [s] with the white space around some terminals replaced by
    one space after the terminal. *)
Inductive respaced : text -> text -> Prop :=
| respaced_nil : respaced [] []
| respaced_keep c s t : respaced s t -> respaced (c :: s) (c :: t)
| respaced_terminal w1 c w2 s t :
    forallb isspace w1 = true -> is_terminal c = true ->
    forallb isspace w2 = true -> respaced s t ->
    respaced (w1 ++ [c] ++ w2 ++ s) (c :: " "%char :: t).

(** [o] is [n] with the character at each sentence start replaced by
    its upper-case form and every other character the same. *)
Definition capitalised (n o : text) : Prop :=
  length o = length n
  /\ forall i,
      nth i o " "%char
      = if starts_sentence n i
        then upper (nth i n " "%char) else nth i n " "%char.

(** *** Notions for further properties of the two transforms *)

(** The character just before the end of [u], if any. *)
Definition char_before (u : text) : option ascii := hd_error (rev u).

(** What [punctuate] leaves alone: no rule matches, no white space stands
    before a punctuation sign, nothing to strip. *)
Definition punctuated (s : text) : Prop :=
  rules_unmatched replacements s
  /\ unmatched space_before_punct None s
  /\ starts_clean s = true /\ ends_clean s = true.

(** The same text up to the case of its letters. *)
Definition same_letters (s s' : text) : Prop := map lower s = map lower s'.

Definition same_letter (o o' : option ascii) : Prop :=
  option_map lower o = option_map lower o'.

(** A pattern that cannot tell the case of a letter: on the same text up
    to case it matches or fails alike, and its matches are the same up to
    case. *)
Definition case_blind (m : matcher) : Prop :=
  forall prev prev' s s',
    same_letter prev prev' -> same_letters s s' ->
    match m prev s, m prev' s' with
    | Some h, Some h' =>
        same_letters (repl h) (repl h')
        /\ lower (last_char h) = lower (last_char h')
        /\ same_letters (rest h) (rest h')
    | None, None => True
    | _, _ => False
    end.

Definition nonspace (c : ascii) : bool := negb (isspace c).

(** Every sentence start of [s] holds a character that is its own
    upper-case form. *)
Definition starts_in_upper (s : text) : Prop :=
  forall i, starts_sentence s i = true ->
            upper (nth i s " "%char) = nth i s " "%char.

(** *** Notions for further properties of the session *)

Definition is_stop (a : action) : bool :=
  match a with
  | Stop => true
  | _ => false
  end.

(** In a sequence of events every transcript line is not empty and is
    directly followed by the typing of the same text, and nothing else
    is typed. *)
Fixpoint lines_typed (evs : list event) : Prop :=
  match evs with
  | [] => True
  | UpdateStatus _ :: evs' => lines_typed evs'
  | AppendOutputLine t :: evs' =>
      t <> []
      /\ match evs' with
         | Write t' :: evs'' => t' = t /\ lines_typed evs''
         | _ => False
         end
  | Write _ :: _ => False
  end.

(** Lines with one newline between them. *)
Fixpoint join_lines (lines : list text) : text :=
  match lines with
  | [] => []
  | [l] => l
  | l :: lines' => l ++ [newline] ++ join_lines lines'
  end.

(** A line as the loop appends it when a transform is on: not empty and
    with nothing to strip. *)
Definition tidy_line (l : text) : Prop :=
  l <> [] /\ starts_clean l = true /\ ends_clean l = true.

(** *** Where the upper-case form is the program's *)

(** [str.upper] of [c] is one character of the range, the one [upper]
    returns: every character but U+00B5, U+00DF and U+00FF. *)
Definition upper_modelled (c : ascii) : bool :=
  negb ((code c =? 181) || (code c =? 223) || (code c =? 255)).

(** Every character that [cap_scan] puts in upper case has its
    upper-case form modelled. *)
Fixpoint starts_modelled (st : cap_state) (n : text) : bool :=
  match n with
  | c :: n' =>
      (if is_sentence_start st then upper_modelled c else true)
      && starts_modelled (cap_next st c) n'
  | [] => true
  end.

(** The texts on which the embedding of [auto_capitalise] is the
    program: once the spacing is normal, no sentence starts with one of
    the three characters whose upper-case form [upper] does not have.
    Elsewhere in the text they are allowed. *)
Definition upper_faithful (s : text) : bool :=
  starts_modelled SentenceStart (normalise s).

(** *** Notions for the session with the shared microphone *)

Definition is_start (a : action) : bool :=
  match a with
  | Start => true
  | _ => false
  end.

(** How many steps thread [tid] takes in [acts]. *)
Fixpoint own_steps (tid : nat) (acts : list action) : nat :=
  match acts with
  | Run t _ _ :: acts' =>
      (if Nat.eqb t tid then 1 else 0) + own_steps tid acts'
  | _ :: acts' => own_steps tid acts'
  | [] => 0
  end.

(** How many steps of its own a thread in its loop needs to leave it
    once the flag is clear: the end of the pass in flight and the test. *)
Definition steps_left (p : place) : nat :=
  match p with
  | InPass => 2
  | AtTest => 1
  | _ => 0
  end.


(** The place of the finer model as a program point of the coarser. *)
Definition pc_of (p : place) : pc :=
  match p with
  | Spawned => Calibrating
  | AtTest | InPass => Looping
  | Returned | Crashed => Exited
  end.

(* ================================================================== *)
(** * Properties *)

(* ------------------------------------------------------------------ *)
(** ** Characters *)

Lemma in_all_ascii (c : ascii) : In c all_ascii.
Proof.
  unfold all_ascii. rewrite <- (ascii_nat_embedding c).
  apply in_map, in_seq. pose proof (nat_ascii_bounded c). lia.
Qed.

Lemma ascii_forall (f : ascii -> bool) :
  forallb f all_ascii = true -> forall c, f c = true.
Proof.
  intros H c. rewrite forallb_forall in H. apply H, in_all_ascii.
Qed.

(** [enumerate f c as E] checks [f] on all 256 characters and records
    [f c = true]. *)
Tactic Notation "enumerate" constr(f) constr(c) "as" ident(E) :=
  assert (E : f c = true)
    by (apply (ascii_forall f); vm_compute; reflexivity);
  cbv beta in E.

Lemma space_not_word c : isspace c = true -> is_word c = false.
Proof.
  intros H.
  enumerate (fun c => implb (isspace c) (negb (is_word c))) c as E.
  rewrite H in E. now destruct (is_word c).
Qed.

Lemma lower_word c : is_word (lower c) = is_word c.
Proof.
  enumerate (fun c => Bool.eqb (is_word (lower c)) (is_word c)) c as E.
  now apply eqb_prop.
Qed.

Lemma ci_eq_word p c : ci_eq p c = true -> is_word c = is_word p.
Proof.
  unfold ci_eq. intros H. apply Ascii.eqb_eq in H.
  now rewrite <- (lower_word c), <- (lower_word p), H.
Qed.

Lemma lower_space c : lower c = " "%char -> c = " "%char.
Proof.
  intros H.
  enumerate (fun c => implb (Ascii.eqb (lower c) " ") (Ascii.eqb c " ")) c as E.
  rewrite H in E. now apply Ascii.eqb_eq.
Qed.

Lemma ci_eq_plain p c : plain p = true -> ci_eq p c = true -> plain c = true.
Proof.
  unfold plain. intros Hp Hc. apply orb_true_iff in Hp as [Hp|Hp].
  - now rewrite (ci_eq_word _ _ Hc), Hp.
  - apply Ascii.eqb_eq in Hp. subst p. unfold ci_eq in Hc.
    apply Ascii.eqb_eq in Hc. rewrite (lower_space c Hc).
    apply orb_true_r.
Qed.

Lemma plain_false c : plain c = false -> is_word c = false /\ c <> " "%char.
Proof.
  unfold plain. intros H. apply orb_false_iff in H as [H1 H2].
  split; [assumption|]. now apply Ascii.eqb_neq.
Qed.

Lemma punct_not_plain c : is_punct c = true -> plain c = false.
Proof.
  intros H.
  enumerate (fun c => implb (is_punct c) (negb (plain c))) c as E.
  rewrite H in E. now destruct (plain c).
Qed.

Lemma punct_not_space c : is_punct c = true -> isspace c = false.
Proof.
  intros H.
  enumerate (fun c => implb (is_punct c) (negb (isspace c))) c as E.
  rewrite H in E. now destruct (isspace c).
Qed.

Lemma terminal_not_space c : is_terminal c = true -> isspace c = false.
Proof.
  intros H.
  enumerate (fun c => implb (is_terminal c) (negb (isspace c))) c as E.
  rewrite H in E. now destruct (isspace c).
Qed.

Lemma upper_terminal c : is_terminal (upper c) = is_terminal c.
Proof.
  enumerate (fun c => Bool.eqb (is_terminal (upper c)) (is_terminal c)) c as E.
  now apply eqb_prop.
Qed.

Lemma upper_space c : isspace (upper c) = isspace c.
Proof.
  enumerate (fun c => Bool.eqb (isspace (upper c)) (isspace c)) c as E.
  now apply eqb_prop.
Qed.

Lemma upper_upper c : upper (upper c) = upper c.
Proof.
  enumerate (fun c => Ascii.eqb (upper (upper c)) (upper c)) c as E.
  now apply Ascii.eqb_eq.
Qed.

Lemma upper_of_terminal c : is_terminal c = true -> upper c = c.
Proof.
  intros H.
  enumerate (fun c => implb (is_terminal c) (Ascii.eqb (upper c) c)) c as E.
  rewrite H in E. now apply Ascii.eqb_eq.
Qed.

(* ------------------------------------------------------------------ *)
(** ** [strip] *)

Lemma lstrip_split s :
  exists ws, s = ws ++ lstrip s /\ forallb isspace ws = true.
Proof.
  induction s as [|c s IH]; [now exists []|].
  simpl. destruct (isspace c) eqn:E.
  - destruct IH as [ws [H1 H2]]. exists (c :: ws). simpl.
    rewrite E, H2. split; [now f_equal|reflexivity].
  - now exists [].
Qed.

Lemma lstrip_clean s : starts_clean (lstrip s) = true.
Proof.
  induction s as [|c s IH]; [reflexivity|].
  simpl. destruct (isspace c) eqn:E; [assumption|]. simpl. now rewrite E.
Qed.

Lemma lstrip_id s : starts_clean s = true -> lstrip s = s.
Proof.
  destruct s as [|c s]; [reflexivity|]. simpl.
  now destruct (isspace c).
Qed.

Lemma rstrip_cons c s :
  rstrip (c :: s)
  = match rstrip s with
    | [] => if isspace c then [] else [c]
    | _ => c :: rstrip s
    end.
Proof. simpl. now destruct (rstrip s). Qed.

Lemma rstrip_split s :
  exists ws, s = rstrip s ++ ws /\ forallb isspace ws = true.
Proof.
  induction s as [|c s IH]; [now exists []|].
  rewrite rstrip_cons. destruct IH as [ws [H1 H2]].
  destruct (rstrip s) as [|d r] eqn:Er.
  - destruct (isspace c) eqn:E.
    + exists (c :: ws). simpl in *. rewrite E, H2. now subst.
    + exists ws. simpl in *. now subst.
  - exists ws. split; [|assumption]. simpl. now f_equal.
Qed.

Lemma rstrip_clean s : ends_clean (rstrip s) = true.
Proof.
  induction s as [|c s IH]; [reflexivity|].
  rewrite rstrip_cons. destruct (rstrip s) as [|d r] eqn:Er.
  - destruct (isspace c) eqn:E; simpl; [reflexivity|now rewrite E].
  - exact IH.
Qed.

Lemma rstrip_id s : ends_clean s = true -> rstrip s = s.
Proof.
  induction s as [|c s IH]; [reflexivity|]. intros H.
  rewrite rstrip_cons. destruct s as [|d s].
  - simpl in *. now destruct (isspace c).
  - rewrite IH by exact H. reflexivity.
Qed.

Lemma rstrip_starts s : starts_clean s = true -> starts_clean (rstrip s) = true.
Proof.
  destruct s as [|c s]; [reflexivity|]. intros H.
  rewrite rstrip_cons. simpl in H.
  destruct (rstrip s); [|exact H].
  destruct (isspace c) eqn:E; [discriminate|]. simpl. now rewrite E.
Qed.

Lemma strip_starts s : starts_clean (strip s) = true.
Proof. apply rstrip_starts, lstrip_clean. Qed.

Lemma strip_ends s : ends_clean (strip s) = true.
Proof. apply rstrip_clean. Qed.

Lemma strip_id s :
  starts_clean s = true -> ends_clean s = true -> strip s = s.
Proof.
  intros H1 H2. unfold strip. now rewrite (lstrip_id s H1), rstrip_id.
Qed.

Lemma strip_strip s : strip (strip s) = strip s.
Proof. apply strip_id; [apply strip_starts|apply strip_ends]. Qed.

Lemma strip_split s :
  exists w1 w2, s = w1 ++ strip s ++ w2
                /\ forallb isspace w1 = true /\ forallb isspace w2 = true.
Proof.
  destruct (lstrip_split s) as [w1 [H1 F1]].
  destruct (rstrip_split (lstrip s)) as [w2 [H2 F2]].
  exists w1, w2. unfold strip. now rewrite <- H2.
Qed.

(* ------------------------------------------------------------------ *)
(** ** The scan of [re_sub] *)

Lemma re_sub_from_fuel m :
  consuming m ->
  forall f1 f2 prev s,
    length s <= f1 -> length s <= f2 ->
    re_sub_from m f1 prev s = re_sub_from m f2 prev s.
Proof.
  intros Hm. induction f1 as [|f1 IH]; intros f2 prev s H1 H2.
  - destruct s; [|simpl in H1; lia]. now destruct f2.
  - destruct s as [|c s]; [now destruct f2|].
    destruct f2 as [|f2]; [simpl in H2; lia|].
    simpl in *. destruct (m prev (c :: s)) as [h|] eqn:E.
    + f_equal. apply Hm in E. simpl in E. apply IH; lia.
    + f_equal. apply IH; lia.
Qed.

Lemma sub_at_nil m prev : sub_at m prev [] = [].
Proof. reflexivity. Qed.

Lemma sub_at_cons m (Hm : consuming m) prev c s :
  sub_at m prev (c :: s)
  = match m prev (c :: s) with
    | Some h => repl h ++ sub_at m (Some (last_char h)) (rest h)
    | None => c :: sub_at m (Some c) s
    end.
Proof.
  unfold sub_at. simpl. destruct (m prev (c :: s)) as [h|] eqn:E.
  - f_equal. apply Hm in E. simpl in E.
    apply re_sub_from_fuel; [assumption|lia|lia].
  - reflexivity.
Qed.

Lemma sub_at_unmatched m prev s : unmatched m prev s -> sub_at m prev s = s.
Proof.
  revert prev. induction s as [|c s IH]; intros prev H; [reflexivity|].
  destruct H as [H1 H2]. unfold sub_at in *. simpl. rewrite H1.
  f_equal. now apply IH.
Qed.

(** Strong induction on the length of the text still to scan. *)
Lemma text_length_ind (P : text -> Prop) :
  (forall s, (forall t, length t < length s -> P t) -> P s) ->
  forall s, P s.
Proof.
  intros H s. remember (length s) as n eqn:E. revert s E.
  induction n as [n IH] using lt_wf_ind. intros s E.
  apply H. intros t Ht. apply (IH (length t)); [lia|reflexivity].
Qed.

(* ------------------------------------------------------------------ *)
(** ** Keyword patterns *)

Lemma match_literal_init lit a b s :
  lit <> [] -> match_literal lit a s = match_literal lit b s.
Proof.
  destruct lit as [|p lit]; [congruence|]. intros _.
  destruct s; reflexivity.
Qed.

Lemma match_literal_span lit :
  lit <> [] ->
  forall l s l' r,
    match_literal lit l s = Some (l', r) ->
    exists u c, s = u ++ [c] ++ r /\ l' = Some c.
Proof.
  induction lit as [|p lit IH]; [congruence|]. intros _ l s l' r H.
  destruct s as [|c s]; [discriminate|]. simpl in H.
  destruct (ci_eq p c); [|discriminate].
  destruct lit as [|q lit].
  - simpl in H. inversion H; subst. now exists [], c.
  - destruct (IH ltac:(discriminate) _ _ _ _ H) as [u [d [E1 E2]]].
    exists (c :: u), d. subst. split; reflexivity.
Qed.

Lemma match_literal_last lit d :
  lit <> [] ->
  forall l s l' r,
    match_literal lit l s = Some (l', r) ->
    word_at l' = is_word (last lit d).
Proof.
  induction lit as [|p lit IH]; [congruence|]. intros _ l s l' r H.
  destruct s as [|c s]; [discriminate|]. simpl in H.
  destruct (ci_eq p c) eqn:Ec; [|discriminate].
  destruct lit as [|q lit].
  - simpl in H. inversion H; subst. simpl. now apply ci_eq_word.
  - now rewrite (IH ltac:(discriminate) _ _ _ _ H).
Qed.

Lemma match_literal_app lit w :
  forall l s l' r,
    match_literal lit l s = Some (l', r) ->
    match_literal lit l (s ++ w) = Some (l', r ++ w).
Proof.
  induction lit as [|p lit IH]; intros l s l' r H.
  - simpl in *. now inversion H.
  - destruct s as [|c s]; [discriminate|]. simpl in *.
    destruct (ci_eq p c); [|discriminate]. now apply IH.
Qed.

Lemma spoken_inv kw :
  spoken kw = true ->
  exists k kw', kw = k :: kw' /\ is_word k = true
                /\ is_word (last kw k) = true /\ forallb plain kw = true.
Proof.
  destruct kw as [|k kw']; [discriminate|]. unfold spoken. intros H.
  apply andb_true_iff in H as [H H3]. apply andb_true_iff in H as [H1 H2].
  now exists k, kw'.
Qed.

Section Keyword.
Variables (kw : text) (sym : ascii).
Hypothesis kw_spoken : spoken kw = true.

Lemma kw_nonempty : kw <> [].
Proof. destruct kw; [discriminate|congruence]. Qed.

(** What a match of [\b<kw>\b] is. *)
Lemma keyword_inv prev s h :
  keyword kw sym prev s = Some h ->
  word_at prev = false
  /\ word_at (hd_error s) = true
  /\ match_literal kw prev s = Some (Some (last_char h), rest h)
  /\ is_word (last_char h) = true
  /\ word_at (hd_error (rest h)) = false
  /\ repl h = [sym].
Proof.
  destruct (spoken_inv kw kw_spoken) as [k [kw' [E [Hk [Hl Hp]]]]].
  unfold keyword. intros H.
  destruct (word_boundary prev (hd_error s)) eqn:B1; [|discriminate].
  destruct (match_literal kw prev s) as [[[l|] r]|] eqn:M; try discriminate.
  destruct (word_boundary (Some l) (hd_error r)) eqn:B2; [|discriminate].
  inversion H; subst h; clear H. cbn [last_char rest repl].
  pose proof (match_literal_last kw k kw_nonempty _ _ _ _ M) as Hw.
  rewrite Hl in Hw. simpl in Hw.
  assert (Hs : word_at (hd_error s) = true).
  { rewrite E in M. destruct s as [|c s]; [discriminate|]. simpl in M.
    destruct (ci_eq k c) eqn:Ec; [|discriminate]. simpl.
    now rewrite (ci_eq_word _ _ Ec). }
  unfold word_boundary in B1, B2. rewrite Hs in B1.
  simpl in B2. rewrite Hw in B2.
  repeat split; try assumption.
  - now destruct (word_at prev).
  - now destruct (word_at (hd_error r)).
Qed.

Lemma keyword_intro prev s l r :
  word_at prev = false ->
  match_literal kw prev s = Some (Some l, r) ->
  word_at (hd_error r) = false ->
  keyword kw sym prev s = Some (Hit [sym] l r).
Proof.
  destruct (spoken_inv kw kw_spoken) as [k [kw' [E [Hk [Hl Hp]]]]].
  intros H1 M H2. unfold keyword.
  pose proof (match_literal_last kw k kw_nonempty _ _ _ _ M) as Hw.
  rewrite Hl in Hw. simpl in Hw.
  assert (Hs : word_at (hd_error s) = true).
  { rewrite E in M. destruct s as [|c s]; [discriminate|]. simpl in M.
    destruct (ci_eq k c) eqn:Ec; [|discriminate]. simpl.
    now rewrite (ci_eq_word _ _ Ec). }
  unfold word_boundary. rewrite H1, Hs, M. simpl. now rewrite Hw, H2.
Qed.

(** Only whether the character before is a word character matters. *)
Lemma keyword_prev p1 p2 s :
  word_at p1 = word_at p2 -> keyword kw sym p1 s = keyword kw sym p2 s.
Proof.
  intros H. unfold keyword, word_boundary. rewrite H.
  now rewrite (match_literal_init kw p1 p2 s kw_nonempty).
Qed.

Lemma keyword_head prev c s h :
  keyword kw sym prev (c :: s) = Some h -> plain c = true.
Proof.
  intros H. apply keyword_inv in H as [_ [H _]]. simpl in H.
  unfold plain. now rewrite H.
Qed.

(** A match survives white space added at the end of the text. *)
Lemma keyword_app prev s h w :
  keyword kw sym prev s = Some h ->
  forallb isspace w = true ->
  keyword kw sym prev (s ++ w) <> None.
Proof.
  intros H Hw. apply keyword_inv in H as [H1 [H2 [M [H3 [H4 _]]]]].
  rewrite (keyword_intro prev (s ++ w) (last_char h) (rest h ++ w));
    [discriminate|assumption|now apply match_literal_app|].
  destruct (rest h) as [|d r]; [|exact H4].
  destruct w as [|x w]; [reflexivity|]. simpl in *.
  apply andb_true_iff in Hw as [Hx _]. now apply space_not_word.
Qed.

Lemma unmatched_prev p1 p2 s :
  word_at p1 = word_at p2 ->
  unmatched (keyword kw sym) p1 s -> unmatched (keyword kw sym) p2 s.
Proof.
  destruct s as [|c s]; [trivial|]. intros H [H1 H2].
  split; [|assumption]. now rewrite <- (keyword_prev p1 p2).
Qed.

Lemma gentle_keyword : plain sym = false -> gentle (keyword kw sym).
Proof.
  intros Hs. split; intros prev s h H.
  - apply keyword_inv in H as [_ [_ [_ [_ [_ H]]]]]. now exists sym.
  - apply keyword_inv in H as [_ [_ [M _]]].
    destruct (match_literal_span kw kw_nonempty _ _ _ _ M)
      as [u [c [E1 E2]]].
    inversion E2; subst c. now exists u.
  - intros _. now apply keyword_inv in H as [_ [_ [_ [_ [H _]]]]].
  - intros Hp. apply keyword_inv in H as [H _]. congruence.
Qed.
End Keyword.

Lemma spaces_then_span cls s p r :
  spaces_then cls s = Some (p, r) ->
  cls p = true
  /\ exists ws, s = ws ++ [p] ++ r /\ forallb isspace ws = true.
Proof.
  revert p r. induction s as [|c s IH]; [discriminate|]. intros p r H.
  simpl in H. destruct (cls c) eqn:Ec.
  - inversion H; subst. split; [assumption|]. now exists [].
  - destruct (isspace c) eqn:Es; [|discriminate].
    destruct (IH _ _ H) as [Hp [ws [E F]]]. split; [assumption|].
    exists (c :: ws). simpl. rewrite Es, F. now subst.
Qed.

Lemma space_before_punct_inv prev s h :
  space_before_punct prev s = Some h ->
  is_punct (last_char h) = true
  /\ repl h = [last_char h]
  /\ exists c ws, s = c :: ws ++ [last_char h] ++ rest h
                  /\ isspace c = true /\ forallb isspace ws = true.
Proof.
  unfold space_before_punct. destruct s as [|c s]; [discriminate|].
  destruct (isspace c) eqn:Ec; [|discriminate].
  destruct (spaces_then is_punct s) as [[p r]|] eqn:E; [|discriminate].
  intros H. inversion H; subst h; clear H. cbn [last_char rest repl].
  destruct (spaces_then_span _ _ _ _ E) as [Hp [ws [E1 F]]].
  split; [assumption|]. split; [reflexivity|].
  exists c, ws. now subst.
Qed.

Lemma gentle_space_before_punct : gentle space_before_punct.
Proof.
  split; intros prev s h H;
    destruct (space_before_punct_inv _ _ _ H)
      as [Hp [Hr [c [ws [E [Hc Hw]]]]]].
  - exists (last_char h). split; [assumption|now apply punct_not_plain].
  - exists (c :: ws). now rewrite E.
  - intros Hl. apply punct_not_plain, plain_false in Hp as [Hp _]. congruence.
  - intros _. rewrite E. simpl. now apply space_not_word.
Qed.

Lemma gentle_consuming m : gentle m -> consuming m.
Proof.
  intros G prev s h H. destruct (gentle_span m G _ _ _ H) as [u E].
  apply (f_equal (@length ascii)) in E. rewrite !length_app in E.
  simpl in E. lia.
Qed.

(* ------------------------------------------------------------------ *)
(** ** A gentle substitution creates no keyword match *)

Lemma covered_suffix k m prev u l t :
  covered k m prev (u ++ [l] ++ t) -> covered k m (Some l) t.
Proof.
  revert prev. induction u as [|c u IH]; intros prev H.
  - now destruct H.
  - destruct H as [_ H]. now apply (IH (Some c)).
Qed.

Lemma unmatched_covered k m prev s : unmatched k prev s -> covered k m prev s.
Proof.
  revert prev. induction s as [|c s IH]; intros prev H; [exact I|].
  destruct H as [H1 H2]. split; [trivial|now apply IH].
Qed.

Lemma covered_refl m prev s : covered m m prev s.
Proof.
  revert prev. induction s as [|c s IH]; intros prev; [exact I|].
  split; [trivial|apply IH].
Qed.

Lemma unmatched_suffix m prev u l t :
  unmatched m prev (u ++ [l] ++ t) -> unmatched m (Some l) t.
Proof.
  revert prev. induction u as [|c u IH]; intros prev H.
  - now destruct H.
  - destruct H as [_ H]. now apply (IH (Some c)).
Qed.

Section Preserve.
Variables (m : matcher) (kw : text) (sym : ascii).
Hypothesis m_gentle : gentle m.
Hypothesis kw_spoken : spoken kw = true.

Let m_consuming : consuming m := gentle_consuming m m_gentle.

(** A literal read in the output of the scan was read from copied
    characters only, so it is in the input too. *)
Lemma literal_through_scan lit :
  forallb plain lit = true ->
  forall prev s l' o,
    match_literal lit prev (sub_at m prev s) = Some (l', o) ->
    exists r, match_literal lit prev s = Some (l', r)
              /\ o = sub_at m l' r
              /\ (lit <> [] -> m prev s = None).
Proof.
  induction lit as [|p lit IH]; intros Hp prev s l' o H.
  - simpl in H. inversion H; subst. exists s. repeat split. congruence.
  - simpl in Hp. apply andb_true_iff in Hp as [Hp Hlit].
    destruct s as [|c s]; [discriminate|].
    rewrite (sub_at_cons m m_consuming) in H.
    destruct (m prev (c :: s)) as [h|] eqn:E.
    + destruct (gentle_repl m m_gentle _ _ _ E) as [r [Er Hr]].
      rewrite Er in H. simpl in H.
      destruct (ci_eq p r) eqn:Ec; [|discriminate].
      rewrite (ci_eq_plain _ _ Hp Ec) in Hr. discriminate.
    + simpl in H. simpl. destruct (ci_eq p c); [|discriminate].
      destruct (IH Hlit _ _ _ _ H) as [r [H1 [H2 _]]].
      exists r. repeat split; assumption.
Qed.

(** A keyword match in the output is a keyword match in the input, at a
    position that the substitution copied. *)
Lemma keyword_through_scan prev prev_o s h :
  compatible prev prev_o s ->
  keyword kw sym prev_o (sub_at m prev s) = Some h ->
  m prev s = None /\ keyword kw sym prev s <> None.
Proof.
  intros Hc H.
  destruct (spoken_inv kw kw_spoken) as [k [kw' [E [Hk [Hl Hp]]]]].
  pose proof (kw_nonempty kw kw_spoken) as Hne.
  apply (keyword_inv kw sym kw_spoken) in H
    as [H1 [H2 [M [H3 [H4 _]]]]].
  rewrite (match_literal_init kw prev_o prev _ Hne) in M.
  destruct (literal_through_scan kw Hp _ _ _ _ M) as [r [M' [Eo Hm]]].
  specialize (Hm Hne). split; [assumption|].
  assert (Hs : hd_error (sub_at m prev s) = hd_error s).
  { destruct s as [|c s]; [reflexivity|].
    now rewrite (sub_at_cons m m_consuming), Hm. }
  rewrite Hs in H2.
  rewrite (keyword_intro kw sym kw_spoken prev s (last_char h) r);
    [discriminate|now apply Hc|assumption|].
  rewrite Eo in H4. destruct r as [|d r]; [reflexivity|].
  rewrite (sub_at_cons m m_consuming) in H4.
  destruct (m (Some (last_char h)) (d :: r)) as [h'|] eqn:E'.
  - now apply (gentle_before m m_gentle _ _ _ E').
  - exact H4.
Qed.

(** Where every keyword match of the input is replaced by the scan,
    the output has no keyword match. *)
Lemma scan_leaves_unmatched s :
  forall prev prev_o,
    compatible prev prev_o s ->
    covered (keyword kw sym) m prev s ->
    unmatched (keyword kw sym) prev_o (sub_at m prev s).
Proof.
  induction s as [s IH] using text_length_ind. intros prev prev_o Hc Hcov.
  destruct s as [|c s]; [exact I|].
  pose proof (sub_at_cons m m_consuming prev c s) as Eq.
  destruct (m prev (c :: s)) as [h|] eqn:E.
  - destruct (gentle_repl m m_gentle _ _ _ E) as [r [Er Hr]].
    destruct (gentle_span m m_gentle _ _ _ E) as [u Eu].
    rewrite Eq, Er. simpl. split.
    + destruct (keyword kw sym prev_o _) as [h'|] eqn:K; [|reflexivity].
      apply (keyword_head kw sym kw_spoken) in K. congruence.
    + apply IH.
      * now apply m_consuming in E.
      * intros _ Hw. destruct (is_word (last_char h)) eqn:W; [|exact W].
        rewrite (gentle_after m m_gentle _ _ _ E W) in Hw. discriminate.
      * rewrite Eu in Hcov. now apply covered_suffix in Hcov.
  - destruct Hcov as [Hk Hcov]. rewrite Eq. split.
    + rewrite <- Eq.
      destruct (keyword kw sym prev_o _) as [h'|] eqn:K; [|reflexivity].
      apply (keyword_through_scan _ _ _ _ Hc) in K as [_ K].
      now specialize (Hk E).
    + apply IH; [simpl; lia| |assumption]. now intros H _.
Qed.
End Preserve.

Lemma compatible_refl prev s : compatible prev prev s.
Proof. now intros H _. Qed.

(** The substitution of a keyword leaves no match of that keyword. *)
Lemma re_sub_keyword_unmatched kw sym s :
  spoken kw = true -> plain sym = false ->
  unmatched (keyword kw sym) None (re_sub (keyword kw sym) s).
Proof.
  intros Hk Hs.
  apply (scan_leaves_unmatched _ kw sym (gentle_keyword kw sym Hk Hs) Hk).
  - apply compatible_refl.
  - apply covered_refl.
Qed.

(** A gentle substitution keeps a text free of a keyword free of it. *)
Lemma re_sub_keeps_unmatched m kw sym s :
  gentle m -> spoken kw = true ->
  unmatched (keyword kw sym) None s ->
  unmatched (keyword kw sym) None (re_sub m s).
Proof.
  intros G Hk H. apply (scan_leaves_unmatched m kw sym G Hk).
  - apply compatible_refl.
  - now apply unmatched_covered.
Qed.

(** So does [strip]. *)
Lemma unmatched_app_spaces kw sym prev s w :
  spoken kw = true -> forallb isspace w = true ->
  unmatched (keyword kw sym) prev (s ++ w) ->
  unmatched (keyword kw sym) prev s.
Proof.
  intros Hk Hw. revert prev. induction s as [|c s IH]; intros prev H.
  - exact I.
  - destruct H as [H1 H2]. split; [|now apply IH].
    destruct (keyword kw sym prev (c :: s)) as [h|] eqn:K; [|reflexivity].
    apply (keyword_app kw sym Hk _ _ _ w) in K; [|assumption].
    now rewrite <- app_comm_cons in K.
Qed.

Lemma unmatched_drop_spaces kw sym w s :
  spoken kw = true -> forallb isspace w = true ->
  unmatched (keyword kw sym) None (w ++ s) ->
  unmatched (keyword kw sym) None s.
Proof.
  intros Hk. revert s. induction w as [|x w _] using rev_ind; intros s Hw H.
  - exact H.
  - rewrite forallb_app in Hw. apply andb_true_iff in Hw as [Hw Hx].
    simpl in Hx. rewrite andb_true_r in Hx.
    rewrite <- app_assoc in H. apply unmatched_suffix in H.
    apply (unmatched_prev kw sym Hk (Some x) None); [|assumption].
    simpl. now apply space_not_word.
Qed.

Lemma strip_keeps_unmatched kw sym s :
  spoken kw = true ->
  unmatched (keyword kw sym) None s ->
  unmatched (keyword kw sym) None (strip s).
Proof.
  intros Hk H. destruct (strip_split s) as [w1 [w2 [E [F1 F2]]]].
  rewrite E in H. apply (unmatched_drop_spaces kw sym w1) in H; try assumption.
  now apply (unmatched_app_spaces kw sym None _ w2) in H.
Qed.

(* ------------------------------------------------------------------ *)
(** ** [punctuate] *)

Lemma spaces_then_app cls s w p r :
  spaces_then cls s = Some (p, r) ->
  spaces_then cls (s ++ w) = Some (p, r ++ w).
Proof.
  revert p r. induction s as [|c s IH]; [discriminate|]. intros p r H.
  simpl in *. destruct (cls c).
  - now inversion H.
  - destruct (isspace c); [now apply IH|discriminate].
Qed.

Lemma consuming_space_before_punct : consuming space_before_punct.
Proof. apply gentle_consuming, gentle_space_before_punct. Qed.

(** Where no white space run ends in a punctuation sign, none does after
    the scan. *)
Lemma spaces_then_punct_scan prev s :
  spaces_then is_punct s = None ->
  spaces_then is_punct (sub_at space_before_punct prev s) = None.
Proof.
  revert prev. induction s as [|c s IH]; intros prev H; [reflexivity|].
  rewrite (sub_at_cons _ consuming_space_before_punct).
  simpl in H. unfold space_before_punct at 1.
  destruct (is_punct c) eqn:Ep; [discriminate|].
  destruct (isspace c) eqn:Es.
  - rewrite H. simpl. rewrite Ep, Es. now apply IH.
  - simpl. now rewrite Ep, Es.
Qed.

Lemma squeeze_unmatched s :
  forall prev prev_o,
    unmatched space_before_punct prev_o (sub_at space_before_punct prev s).
Proof.
  induction s as [s IH] using text_length_ind. intros prev prev_o.
  destruct s as [|c s]; [exact I|].
  rewrite (sub_at_cons _ consuming_space_before_punct).
  destruct (space_before_punct prev (c :: s)) as [h|] eqn:E.
  - pose proof (consuming_space_before_punct _ _ _ E) as Hlen.
    destruct (space_before_punct_inv _ _ _ E) as [Hp [Hr _]].
    rewrite Hr. simpl. split; [|now apply IH].
    now rewrite (punct_not_space _ Hp).
  - split; [|apply IH; simpl; lia].
    unfold space_before_punct in *.
    destruct (isspace c); [|reflexivity].
    destruct (spaces_then is_punct s) as [[p r]|] eqn:E'; [discriminate|].
    now rewrite (spaces_then_punct_scan _ _ E').
Qed.

Lemma unmatched_squeeze_prev p1 p2 s :
  unmatched space_before_punct p1 s -> unmatched space_before_punct p2 s.
Proof. destruct s; [trivial|]. intros H. exact H. Qed.

Lemma unmatched_squeeze_suffix prev u t :
  unmatched space_before_punct prev (u ++ t) ->
  unmatched space_before_punct None t.
Proof.
  revert prev. induction u as [|c u IH]; intros prev H.
  - now apply (unmatched_squeeze_prev prev).
  - destruct H as [_ H]. now apply (IH (Some c)).
Qed.

Lemma unmatched_squeeze_prefix prev s w :
  unmatched space_before_punct prev (s ++ w) ->
  unmatched space_before_punct prev s.
Proof.
  revert prev. induction s as [|c s IH]; intros prev H; [exact I|].
  destruct H as [H1 H2]. split; [|now apply IH].
  unfold space_before_punct in *.
  destruct (isspace c); [|reflexivity].
  destruct (spaces_then is_punct s) as [[p r]|] eqn:E; [|reflexivity].
  now rewrite (spaces_then_app _ _ w _ _ E) in H1.
Qed.

Lemma strip_keeps_squeezed s :
  unmatched space_before_punct None s ->
  unmatched space_before_punct None (strip s).
Proof.
  intros H. destruct (strip_split s) as [w1 [w2 [E _]]].
  rewrite E in H. apply unmatched_squeeze_suffix in H.
  now apply unmatched_squeeze_prefix in H.
Qed.

Lemma rule_ok_inv r :
  rule_ok r = true -> spoken (fst r) = true /\ plain (snd r) = false.
Proof.
  unfold rule_ok. intros H. apply andb_true_iff in H as [H1 H2].
  split; [assumption|]. now destruct (plain (snd r)).
Qed.

(** After the loop over the rules, no rule matches any more. *)
Lemma substitute_all_unmatched rs :
  forallb rule_ok rs = true ->
  forall done txt,
    forallb rule_ok done = true ->
    rules_unmatched done txt ->
    rules_unmatched (done ++ rs) (substitute_all rs txt).
Proof.
  induction rs as [|r rs IH]; intros Hrs done txt Hdone H.
  - now rewrite app_nil_r.
  - simpl in Hrs. apply andb_true_iff in Hrs as [Hr Hrs].
    destruct (rule_ok_inv r Hr) as [Hk Hs].
    change (substitute_all (r :: rs) txt)
      with (substitute_all rs (re_sub (keyword (fst r) (snd r)) txt)).
    replace (done ++ r :: rs) with ((done ++ [r]) ++ rs)
      by now rewrite <- app_assoc.
    apply IH; [assumption| |].
    + rewrite forallb_app, Hdone. simpl. now rewrite Hr.
    + apply Forall_app. split.
      * unfold rules_unmatched in *. rewrite Forall_forall in *.
        rewrite forallb_forall in Hdone.
        intros q Hq. destruct (rule_ok_inv q (Hdone q Hq)) as [Hqk _].
        apply re_sub_keeps_unmatched;
          [now apply gentle_keyword|assumption|now apply H].
      * constructor; [|constructor].
        now apply re_sub_keyword_unmatched.
Qed.

(** Where no rule matches, the loop over the rules changes nothing. *)
Lemma substitute_all_id rs txt :
  rules_unmatched rs txt -> substitute_all rs txt = txt.
Proof.
  induction rs as [|r rs IH]; intros H; [reflexivity|].
  inversion H as [|? ? H1 H2]; subst.
  change (substitute_all (r :: rs) txt)
    with (substitute_all rs (re_sub (keyword (fst r) (snd r)) txt)).
  unfold re_sub. fold (sub_at (keyword (fst r) (snd r)) None txt).
  rewrite (sub_at_unmatched _ _ _ H1). now apply IH.
Qed.

Lemma replacements_ok : forallb rule_ok replacements = true.
Proof. vm_compute. reflexivity. Qed.

Lemma punctuate_eq txt :
  punctuate txt
  = strip (re_sub space_before_punct (substitute_all replacements txt)).
Proof. reflexivity. Qed.

(** The result of [punctuate] holds no keyword, no white space before a
    punctuation sign and no white space at either end. *)
Lemma punctuate_normal txt :
  rules_unmatched replacements (punctuate txt)
  /\ unmatched space_before_punct None (punctuate txt)
  /\ starts_clean (punctuate txt) = true
  /\ ends_clean (punctuate txt) = true.
Proof.
  rewrite punctuate_eq. repeat split.
  - pose proof (substitute_all_unmatched replacements replacements_ok
                  [] txt eq_refl (Forall_nil _)) as H.
    simpl app in H. unfold rules_unmatched in *.
    pose proof replacements_ok as Hok. rewrite forallb_forall in Hok.
    rewrite Forall_forall in *. intros r Hr.
    destruct (rule_ok_inv r (Hok r Hr)) as [Hk _].
    apply strip_keeps_unmatched; [assumption|].
    apply re_sub_keeps_unmatched;
      [apply gentle_space_before_punct|assumption|now apply H].
  - apply strip_keeps_squeezed. apply squeeze_unmatched.
  - apply strip_starts.
  - apply strip_ends.
Qed.

(** C1: [punctuate] applied to its own result returns that result. *)
Theorem punctuate_idempotent :
  forall s : text, punctuate (punctuate s) = punctuate s.
Proof.
  intros s. destruct (punctuate_normal s) as [H1 [H2 [H3 H4]]].
  rewrite punctuate_eq at 1.
  rewrite (substitute_all_id _ _ H1).
  unfold re_sub. fold (sub_at space_before_punct None (punctuate s)).
  rewrite (sub_at_unmatched _ _ _ H2).
  now apply strip_id.
Qed.

(* ------------------------------------------------------------------ *)
(** ** Normal spacing *)

Lemma terminal_spacing_inv prev s h :
  terminal_spacing prev s = Some h ->
  exists t r, spaces_then is_terminal s = Some (t, r)
              /\ is_terminal t = true
              /\ repl h = [t; " "%char] /\ rest h = lstrip r.
Proof.
  unfold terminal_spacing.
  destruct (spaces_then is_terminal s) as [[t r]|] eqn:E; [|discriminate].
  intros H. inversion H; subst h; clear H. exists t, r.
  destruct (spaces_then_span _ _ _ _ E) as [Ht _]. now repeat split.
Qed.

Lemma length_lstrip s : length (lstrip s) <= length s.
Proof.
  induction s as [|c s IH]; [reflexivity|]. simpl.
  destruct (isspace c); simpl; lia.
Qed.

Lemma consuming_terminal_spacing : consuming terminal_spacing.
Proof.
  intros prev s h H.
  destruct (terminal_spacing_inv _ _ _ H) as [t [r [E [_ [_ Er]]]]].
  destruct (spaces_then_span _ _ _ _ E) as [_ [ws [Es _]]].
  rewrite Er. pose proof (length_lstrip r).
  apply (f_equal (@length ascii)) in Es. rewrite !length_app in Es.
  simpl in Es. lia.
Qed.

Lemma after_plain c :
  is_terminal c = false -> after c = if isspace c then InSpace else Free.
Proof. unfold after. now intros ->. Qed.

Lemma after_terminal c : is_terminal c = true -> after c = AfterTerminal.
Proof. unfold after. now intros ->. Qed.

(** The scan for [terminal_spacing] writes a text with normal spacing. *)
Lemma scan_shaped s :
  forall q prev,
    fits q s -> shaped q (sub_at terminal_spacing prev s) = true.
Proof.
  induction s as [s IH] using text_length_ind. intros q prev Hq.
  destruct s as [|c s]; [reflexivity|].
  rewrite (sub_at_cons _ consuming_terminal_spacing).
  destruct (terminal_spacing prev (c :: s)) as [h|] eqn:E.
  - pose proof (consuming_terminal_spacing _ _ _ E) as Hlen.
    destruct (terminal_spacing_inv _ _ _ E) as [t [r [Es [Ht [Er Eh]]]]].
    rewrite Er, Eh in *. simpl.
    assert (Hgap : shaped AfterGap
                     (sub_at terminal_spacing (Some (last_char h)) (lstrip r))
                   = true).
    { apply IH; [assumption|]. simpl. apply lstrip_clean. }
    destruct q; cbn [fits] in Hq.
    + now rewrite (after_terminal t Ht); simpl.
    + congruence.
    + contradiction.
    + rewrite (terminal_not_space t Ht), (after_terminal t Ht). now simpl.
  - unfold terminal_spacing in E. simpl in E.
    destruct (is_terminal c) eqn:Et; [discriminate|].
    assert (Hnext : shaped (after c)
                      (sub_at terminal_spacing (Some c) s) = true).
    { apply IH; [simpl; lia|]. rewrite (after_plain c Et).
      destruct (isspace c); simpl; [|exact I].
      now destruct (spaces_then is_terminal s) as [[t r]|]. }
    destruct q; cbn [fits starts_clean] in Hq; simpl.
    + exact Hnext.
    + now rewrite Et.
    + contradiction.
    + destruct (isspace c); [discriminate|exact Hnext].
Qed.

Lemma shaped_space_free t : shaped InSpace t = true -> shaped Free t = true.
Proof.
  destruct t as [|c t]; [trivial|]. simpl. intros H.
  now apply andb_true_iff in H as [_ H].
Qed.

Lemma shaped_drop_spaces w t :
  forallb isspace w = true -> shaped Free (w ++ t) = true ->
  shaped Free t = true.
Proof.
  intros Hw H. assert (G : forall q, (q = Free \/ q = InSpace) ->
                           shaped q (w ++ t) = true -> shaped Free t = true).
  { clear H. induction w as [|x w IH]; intros q Hq H.
    - destruct Hq; subst; [assumption|now apply shaped_space_free].
    - simpl in Hw. apply andb_true_iff in Hw as [Hx Hw].
      assert (Ex : is_terminal x = false).
      { destruct (is_terminal x) eqn:Et; [|reflexivity].
        now rewrite (terminal_not_space x Et) in Hx. }
      apply (IH Hw InSpace); [now right|].
      destruct Hq; subst; simpl in H;
        rewrite (after_plain x Ex), Hx in H; [assumption|].
      now apply andb_true_iff in H as [_ H]. }
  apply (G Free); [now left|assumption].
Qed.

Lemma shaped_prefix q t w : shaped q (t ++ w) = true -> shaped q t = true.
Proof.
  revert q. induction t as [|c t IH]; intros q H; [reflexivity|].
  destruct q; simpl in *;
    repeat match goal with
           | H : _ && _ = true |- _ => apply andb_true_iff in H as [? H]
           end;
    repeat (apply andb_true_iff; split); try assumption; now apply IH.
Qed.

(** The result of [normalise] has normal spacing. *)
Lemma normalise_normal s : normal (normalise s).
Proof.
  unfold normalise, normal. repeat split.
  - destruct (strip_split (re_sub terminal_spacing s)) as [w1 [w2 [E [F1 _]]]].
    pose proof (scan_shaped s Free None I) as H.
    fold (re_sub terminal_spacing s) in H. unfold sub_at in H.
    fold (re_sub terminal_spacing s) in H. rewrite E in H.
    apply (shaped_drop_spaces w1) in H; [|assumption].
    now apply shaped_prefix in H.
  - apply strip_starts.
  - apply strip_ends.
Qed.

Lemma shaped_space_no_terminal t :
  shaped InSpace t = true -> spaces_then is_terminal t = None.
Proof.
  induction t as [|c t IH]; [reflexivity|]. simpl. intros H.
  apply andb_true_iff in H as [Hc H].
  destruct (is_terminal c) eqn:Et; [discriminate|].
  rewrite (after_plain c Et) in H.
  destruct (isspace c); [now apply IH|reflexivity].
Qed.

Lemma shaped_gap_starts t : shaped AfterGap t = true -> starts_clean t = true.
Proof.
  destruct t as [|c t]; [reflexivity|]. simpl. intros H.
  now apply andb_true_iff in H as [H _].
Qed.

Lemma ends_clean_cons c d t : ends_clean (c :: d :: t) = ends_clean (d :: t).
Proof. reflexivity. Qed.

Lemma closing_space_cons c d t :
  closing_space (c :: d :: t) = closing_space (d :: t).
Proof. reflexivity. Qed.

(** On a text with normal spacing the scan for [terminal_spacing] only
    adds a space after a terminal at the very end. *)
Lemma scan_normal_id t :
  forall q prev,
    q <> AfterTerminal -> shaped q t = true -> ends_clean t = true ->
    sub_at terminal_spacing prev t = t ++ closing_space t.
Proof.
  induction t as [t IH] using text_length_ind. intros q prev Hq Hs He.
  destruct t as [|c t]; [reflexivity|].
  rewrite (sub_at_cons _ consuming_terminal_spacing).
  unfold terminal_spacing at 1. cbn [spaces_then].
  destruct (is_terminal c) eqn:Et.
  - cbn [repl last_char rest].
    assert (Ht : shaped AfterTerminal t = true).
    { destruct q; simpl in Hs; rewrite ?Et, ?(after_terminal c Et) in Hs;
        try congruence; try discriminate.
      now apply andb_true_iff in Hs as [_ Hs]. }
    destruct t as [|d t]; [simpl; now rewrite Et|].
    simpl in Ht. apply andb_true_iff in Ht as [Hd Ht].
    apply Ascii.eqb_eq in Hd. subst d.
    change (lstrip (" "%char :: t)) with (lstrip t).
    rewrite (lstrip_id t (shaped_gap_starts t Ht)).
    destruct t as [|e t]; [discriminate|].
    rewrite (IH (e :: t)) with (q := AfterGap);
      [reflexivity|simpl; lia|discriminate|assumption|exact He].
  - assert (Hn : shaped (after c) t = true).
    { destruct q; simpl in Hs; try congruence;
        try (now apply andb_true_iff in Hs as [_ Hs]). }
    rewrite (after_plain c Et) in Hn.
    destruct (isspace c) eqn:Ec.
    + rewrite (shaped_space_no_terminal t Hn).
      destruct t as [|d t]; [simpl in He; now rewrite Ec in He|].
      rewrite (IH (d :: t)) with (q := InSpace);
        [reflexivity|simpl; lia|discriminate|assumption|exact He].
    + destruct t as [|d t]; [simpl; now rewrite Et|].
      rewrite (IH (d :: t)) with (q := Free);
        [reflexivity|simpl; lia|discriminate|assumption|exact He].
Qed.

Lemma rstrip_app_space t w : isspace w = true -> rstrip (t ++ [w]) = rstrip t.
Proof.
  intros Hw. induction t as [|c t IH]; [simpl; now rewrite Hw|].
  rewrite <- app_comm_cons, !rstrip_cons. now rewrite IH.
Qed.

Lemma strip_closing_space t :
  starts_clean t = true -> ends_clean t = true ->
  strip (t ++ closing_space t) = t.
Proof.
  intros H1 H2.
  assert (E : closing_space t = [] \/ (t <> [] /\ closing_space t = [" "%char])).
  { clear. induction t as [|c t IH]; [now left|].
    destruct t as [|d t].
    - simpl. destruct (is_terminal c); [right|left]; [split|]; congruence.
    - rewrite closing_space_cons. destruct IH as [IH|[_ IH]]; [now left|].
      right. split; congruence. }
  destruct E as [E|[Hne E]]; rewrite E.
  - rewrite app_nil_r. now apply strip_id.
  - unfold strip. rewrite lstrip_id.
    + rewrite rstrip_app_space by reflexivity. now apply rstrip_id.
    + destruct t; [congruence|exact H1].
Qed.

(** [normalise] changes nothing in a text with normal spacing. *)
Lemma normalise_id t : normal t -> normalise t = t.
Proof.
  intros [Hs [H1 H2]]. unfold normalise, re_sub.
  fold (sub_at terminal_spacing None t).
  rewrite (scan_normal_id t Free None); try assumption; [|discriminate].
  now apply strip_closing_space.
Qed.

(* ------------------------------------------------------------------ *)
(** ** [auto_capitalise] *)

Lemma ends_clean_app a b :
  ends_clean (a ++ b) = match b with [] => ends_clean a | _ => ends_clean b end.
Proof.
  induction a as [|x a IH]; [now destruct b|].
  destruct b as [|y b]; [now rewrite app_nil_r|].
  simpl app. destruct a as [|z a]; [reflexivity|].
  rewrite <- app_comm_cons in *. rewrite ends_clean_cons. exact IH.
Qed.

Lemma ends_clean_last s d :
  s <> [] -> ends_clean s = negb (isspace (last s d)).
Proof.
  induction s as [|c s IH]; [congruence|]. intros _.
  destruct s as [|e s]; [reflexivity|].
  rewrite ends_clean_cons. now rewrite IH by discriminate.
Qed.

Lemma capitalise_first_app a b :
  a <> [] -> capitalise_first (a ++ b) = capitalise_first a ++ b.
Proof. destruct a; [congruence|reflexivity]. Qed.

Lemma starts_clean_app a b : a <> [] -> starts_clean (a ++ b) = starts_clean a.
Proof. destruct a; [congruence|reflexivity]. Qed.

Lemma split_from_cons cur c n :
  split_from cur (c :: n)
  = match n with
    | d :: n' =>
        if is_terminal c && isspace d
        then cur :: [c; d] :: split_from [] n'
        else split_from (cur ++ [c]) n
    | [] => split_from (cur ++ [c]) n
    end.
Proof. now destruct n. Qed.

Lemma cap_scan_rest c n :
  (is_terminal c = true -> n = []) ->
  cap_scan (if is_terminal c then AfterTerm else Inside) n = cap_scan Inside n.
Proof.
  destruct (is_terminal c); [|reflexivity]. intros H. now rewrite H.
Qed.

(** A terminal that the split keeps inside a piece is the last character
    of the text. *)
Lemma kept_terminal_last c n :
  shaped (after c) n = true ->
  match n with
  | d :: _ => is_terminal c && isspace d = false
  | [] => True
  end ->
  is_terminal c = true -> n = [].
Proof.
  intros Hs Hn Ht. destruct n as [|d n]; [reflexivity|].
  rewrite (after_terminal c Ht) in Hs. simpl in Hs.
  apply andb_true_iff in Hs as [Hd _]. apply Ascii.eqb_eq in Hd. subst d.
  rewrite Ht in Hn. discriminate.
Qed.

(** On a text with normal spacing, splitting, capitalising the pieces
    and joining them again is one pass of [cap_scan]: from inside a
    sentence whose beginning [cur] has been read, and from the start of a
    sentence. *)
Lemma split_capitalise_scan n :
  (forall cur,
      cur <> [] -> starts_clean cur = true ->
      shaped (after (last cur " "%char)) n = true ->
      (is_terminal (last cur " "%char) = true -> n = []) ->
      ends_clean (cur ++ n) = true ->
      concat (capitalise_parts (split_from cur n))
      = capitalise_first cur ++ cap_scan Inside n)
  /\ (shaped AfterGap n = true -> ends_clean n = true ->
      concat (capitalise_parts (split_from [] n)) = cap_scan SentenceStart n).
Proof.
  induction n as [n IH] using text_length_ind.
  assert (IHa : forall t, length t < length n ->
            forall cur, cur <> [] -> starts_clean cur = true ->
              shaped (after (last cur " "%char)) t = true ->
              (is_terminal (last cur " "%char) = true -> t = []) ->
              ends_clean (cur ++ t) = true ->
              concat (capitalise_parts (split_from cur t))
              = capitalise_first cur ++ cap_scan Inside t)
    by (intros t Ht; apply (IH t Ht)).
  assert (IHb : forall t, length t < length n ->
            shaped AfterGap t = true -> ends_clean t = true ->
            concat (capitalise_parts (split_from [] t))
            = cap_scan SentenceStart t)
    by (intros t Ht; apply (IH t Ht)).
  clear IH. split.
  - intros cur Hne Hst Hsh Hterm Hend.
    destruct n as [|c n].
    { simpl. rewrite !app_nil_r in *. now rewrite strip_id. }
    assert (El : is_terminal (last cur " "%char) = false).
    { destruct (is_terminal (last cur " "%char)); [|reflexivity].
      now specialize (Hterm eq_refl). }
    rewrite (after_plain _ El) in Hsh.
    assert (Hc : shaped (after c) n = true).
    { destruct (isspace (last cur " "%char)); simpl in Hsh; [|assumption].
      now apply andb_true_iff in Hsh as [_ Hsh]. }
    assert (Step : (match n with
                    | d :: _ => is_terminal c && isspace d = false
                    | [] => True
                    end) ->
                   concat (capitalise_parts (split_from (cur ++ [c]) n))
                   = capitalise_first cur ++ cap_scan Inside (c :: n)).
    { intros Hn.
      pose proof (kept_terminal_last c n Hc Hn) as Hlast.
      rewrite IHa.
      - rewrite (capitalise_first_app cur [c] Hne), <- app_assoc.
        simpl. now rewrite (cap_scan_rest c n Hlast).
      - simpl. lia.
      - now destruct cur.
      - now rewrite starts_clean_app.
      - now rewrite last_last.
      - now rewrite last_last.
      - now rewrite <- app_assoc. }
    rewrite split_from_cons. destruct n as [|d n]; [now apply Step|].
    destruct (is_terminal c && isspace d) eqn:Ed; [|now apply Step].
    apply andb_true_iff in Ed as [Et Ed].
    rewrite (after_terminal c Et) in Hc. simpl in Hc.
    apply andb_true_iff in Hc as [_ Hgap].
    assert (Hcur : ends_clean cur = true).
    { rewrite (ends_clean_last cur " "%char Hne).
      destruct (isspace (last cur " "%char)); [|reflexivity].
      simpl in Hsh. now rewrite Et in Hsh. }
    assert (Hn : ends_clean n = true).
    { rewrite ends_clean_app, ends_clean_cons in Hend.
      destruct n as [|e n]; [simpl in Hend; now rewrite Ed in Hend|].
      exact Hend. }
    cbn [capitalise_parts concat]. rewrite (strip_id cur Hst Hcur).
    rewrite IHb by (simpl; try lia; assumption).
    rewrite <- app_assoc. simpl. rewrite Et. simpl. now rewrite Ed.
  - intros Hsh Hend. destruct n as [|c n]; [reflexivity|].
    simpl in Hsh. apply andb_true_iff in Hsh as [Hsp Hc].
    apply negb_true_iff in Hsp.
    assert (Step : (match n with
                    | d :: _ => is_terminal c && isspace d = false
                    | [] => True
                    end) ->
                   concat (capitalise_parts (split_from ([] ++ [c]) n))
                   = cap_scan SentenceStart (c :: n)).
    { intros Hn.
      pose proof (kept_terminal_last c n Hc Hn) as Hlast.
      rewrite IHa.
      - simpl. now rewrite (cap_scan_rest c n Hlast).
      - simpl. lia.
      - discriminate.
      - simpl. now rewrite Hsp.
      - exact Hc.
      - exact Hlast.
      - exact Hend. }
    rewrite split_from_cons. destruct n as [|d n]; [now apply Step|].
    destruct (is_terminal c && isspace d) eqn:Ed; [|now apply Step].
    apply andb_true_iff in Ed as [Et Ed].
    rewrite (after_terminal c Et) in Hc. simpl in Hc.
    apply andb_true_iff in Hc as [_ Hgap].
    assert (Hn : ends_clean n = true).
    { rewrite ends_clean_cons in Hend.
      destruct n as [|e n]; [simpl in Hend; now rewrite Ed in Hend|].
      exact Hend. }
    cbn [capitalise_parts concat].
    rewrite IHb by (simpl; try lia; assumption).
    simpl. rewrite Et, (upper_of_terminal c Et). simpl. now rewrite Ed.
Qed.

Lemma upper_eq_space c : Ascii.eqb (upper c) " " = Ascii.eqb c " ".
Proof.
  enumerate (fun c => Bool.eqb (Ascii.eqb (upper c) " ") (Ascii.eqb c " "))
    c as E.
  now apply eqb_prop.
Qed.

Lemma cap_char_terminal st c : is_terminal (cap_char st c) = is_terminal c.
Proof. destruct st; simpl; [apply upper_terminal|reflexivity..]. Qed.

Lemma cap_char_space st c : isspace (cap_char st c) = isspace c.
Proof. destruct st; simpl; [apply upper_space|reflexivity..]. Qed.

Lemma cap_char_eq_space st c :
  Ascii.eqb (cap_char st c) " " = Ascii.eqb c " ".
Proof. destruct st; simpl; [apply upper_eq_space|reflexivity..]. Qed.

Lemma after_cap_char st c : after (cap_char st c) = after c.
Proof. unfold after. now rewrite cap_char_terminal, cap_char_space. Qed.

Lemma cap_next_cap_char st st' c : cap_next st (cap_char st' c) = cap_next st c.
Proof.
  unfold cap_next. now rewrite cap_char_terminal, cap_char_space.
Qed.

Lemma cap_char_cap_char st c : cap_char st (cap_char st c) = cap_char st c.
Proof. destruct st; simpl; [apply upper_upper|reflexivity..]. Qed.

(** [cap_scan] keeps the class of every character, hence the shape. *)
Lemma shaped_cap_scan n :
  forall q st, shaped q (cap_scan st n) = shaped q n.
Proof.
  induction n as [|c n IH]; intros q st; [reflexivity|].
  destruct q; simpl;
    rewrite ?cap_char_terminal, ?cap_char_space, ?cap_char_eq_space,
      ?after_cap_char, IH; reflexivity.
Qed.

Lemma starts_clean_cap_scan st n :
  starts_clean (cap_scan st n) = starts_clean n.
Proof. destruct n; [reflexivity|]. simpl. now rewrite cap_char_space. Qed.

Lemma ends_clean_cap_scan n :
  forall st, ends_clean (cap_scan st n) = ends_clean n.
Proof.
  induction n as [|c n IH]; intros st; [reflexivity|].
  destruct n as [|d n]; [simpl; now rewrite cap_char_space|].
  change (cap_scan st (c :: d :: n))
    with (cap_char st c :: cap_char (cap_next st c) d
            :: cap_scan (cap_next (cap_next st c) d) n).
  rewrite !ends_clean_cons. apply (IH (cap_next st c)).
Qed.

Lemma normal_cap_scan st n : normal n -> normal (cap_scan st n).
Proof.
  intros [H1 [H2 H3]]. unfold normal.
  now rewrite shaped_cap_scan, starts_clean_cap_scan, ends_clean_cap_scan.
Qed.

Lemma cap_scan_idempotent n :
  forall st, cap_scan st (cap_scan st n) = cap_scan st n.
Proof.
  induction n as [|c n IH]; intros st; [reflexivity|].
  simpl. now rewrite cap_char_cap_char, cap_next_cap_char, IH.
Qed.

Lemma shaped_free_gap n :
  shaped Free n = true -> starts_clean n = true -> shaped AfterGap n = true.
Proof.
  destruct n as [|c n]; [reflexivity|]. simpl. now intros -> ->.
Qed.

(** [auto_capitalise] is [normalise] followed by one pass of [cap_scan]. *)
Lemma auto_capitalise_scan s :
  auto_capitalise s = cap_scan SentenceStart (normalise s).
Proof.
  unfold auto_capitalise, re_split.
  pose proof (normalise_normal s) as Hn.
  destruct (normal_cap_scan SentenceStart _ Hn) as [_ [H2 H3]].
  destruct Hn as [N1 [N2 N3]].
  destruct (split_capitalise_scan (normalise s)) as [_ H].
  rewrite H; [|now apply shaped_free_gap|assumption].
  now apply strip_id.
Qed.

Lemma upper_modelled_upper c : upper_modelled (upper c) = upper_modelled c.
Proof.
  enumerate (fun c => Bool.eqb (upper_modelled (upper c)) (upper_modelled c))
    c as E.
  now apply eqb_prop.
Qed.

Lemma starts_modelled_cap_scan n :
  forall st,
    starts_modelled st n = true -> starts_modelled st (cap_scan st n) = true.
Proof.
  induction n as [|c n IH]; intros st H; [reflexivity|].
  simpl in *. apply andb_true_iff in H as [Hc H].
  rewrite cap_next_cap_char, (IH _ H), andb_true_r.
  destruct st; simpl in *; try reflexivity.
  now rewrite upper_modelled_upper.
Qed.

(** The result of [auto_capitalise] is again a text on which the
    embedding is the program. *)
Lemma upper_faithful_auto_capitalise s :
  upper_faithful s = true -> upper_faithful (auto_capitalise s) = true.
Proof.
  unfold upper_faithful. intros H.
  rewrite (normalise_id (auto_capitalise s)).
  - rewrite auto_capitalise_scan. now apply starts_modelled_cap_scan.
  - rewrite auto_capitalise_scan. apply normal_cap_scan, normalise_normal.
Qed.

(** C2: on every text whose sentence starts have a modelled upper-case
    form (all texts but those in which a sentence starts with U+00B5,
    U+00DF or U+00FF), the result of [auto_capitalise] is such a text
    again and [auto_capitalise] applied to it returns it. *)
Theorem auto_capitalise_idempotent :
  forall s : text,
    upper_faithful s = true ->
    upper_faithful (auto_capitalise s) = true
    /\ auto_capitalise (auto_capitalise s) = auto_capitalise s.
Proof.
  intros s H. split; [now apply upper_faithful_auto_capitalise|].
  rewrite (auto_capitalise_scan (auto_capitalise s)).
  rewrite (auto_capitalise_scan s).
  rewrite normalise_id by apply normal_cap_scan, normalise_normal.
  apply cap_scan_idempotent.
Qed.

Lemma auto_capitalise_idempotent_witness :
  let s := str "stra" ++ ["223"%char] ++ str "e  .is it?yes" in
  auto_capitalise (auto_capitalise s) = auto_capitalise s.
Proof.
  refine (proj2 (auto_capitalise_idempotent
                   (str "stra" ++ ["223"%char] ++ str "e  .is it?yes") _)).
  vm_compute. reflexivity.
Defined.

Lemma length_cap_scan n : forall st, length (cap_scan st n) = length n.
Proof.
  induction n as [|c n IH]; intros st; [reflexivity|].
  simpl. now rewrite IH.
Qed.

Lemma cap_next_after_term st c :
  is_after_term (cap_next st c) = is_terminal c.
Proof.
  destruct st; simpl; try (now destruct (is_terminal c)).
  destruct (isspace c) eqn:Es.
  - destruct (is_terminal c) eqn:Et; [|reflexivity].
    now rewrite (terminal_not_space c Et) in Es.
  - now destruct (is_terminal c).
Qed.

Lemma cap_next_sentence_start st c :
  is_sentence_start (cap_next st c) = is_after_term st && isspace c.
Proof.
  destruct st; simpl; try (now destruct (is_terminal c)).
  destruct (isspace c); [reflexivity|now destruct (is_terminal c)].
Qed.

Lemma starts_sentence_from_cons st c n i :
  starts_sentence_from st (c :: n) (S i)
  = starts_sentence_from (cap_next st c) n i.
Proof.
  destruct i as [|[|j]]; simpl.
  - now rewrite cap_next_sentence_start.
  - now rewrite cap_next_after_term.
  - reflexivity.
Qed.

(** Character by character, [cap_scan] upper-cases the sentence starts
    and copies the rest. *)
Lemma nth_cap_scan n :
  forall st i,
    nth i (cap_scan st n) " "%char
    = if starts_sentence_from st n i
      then upper (nth i n " "%char) else nth i n " "%char.
Proof.
  induction n as [|c n IH]; intros st i.
  - destruct (starts_sentence_from st [] i); now destruct i.
  - destruct i as [|i].
    + now destruct st.
    + rewrite starts_sentence_from_cons. simpl. apply IH.
Qed.

(** The scan for [terminal_spacing] only replaces white space around
    terminals. *)
Lemma respaced_scan s :
  forall prev, respaced s (sub_at terminal_spacing prev s).
Proof.
  induction s as [s IH] using text_length_ind. intros prev.
  destruct s as [|c s]; [constructor|].
  rewrite (sub_at_cons _ consuming_terminal_spacing).
  destruct (terminal_spacing prev (c :: s)) as [h|] eqn:E.
  - pose proof (consuming_terminal_spacing _ _ _ E) as Hlen.
    destruct (terminal_spacing_inv _ _ _ E) as [t [r [Es [Ht [Er Eh]]]]].
    destruct (spaces_then_span _ _ _ _ Es) as [_ [w1 [E1 F1]]].
    destruct (lstrip_split r) as [w2 [E2 F2]].
    rewrite Er, E1. rewrite E2 at 1. rewrite Eh in *.
    simpl app at 3. constructor; try assumption. now apply IH.
  - constructor. apply IH. simpl. lia.
Qed.

(** C8, as amended: on every text whose sentence starts have a modelled
    upper-case form, the result of [auto_capitalise] is the text in
    which white space is changed only around terminals and stripped at
    the two ends ([normalise]), and in which then the first character and
    each character that follows a terminal and a space is replaced by its
    upper-case form while every other character is the same; so on the
    example. *)
Theorem auto_capitalise_touches_sentence_starts_only :
  (forall s : text,
      upper_faithful s = true ->
      (exists w1 w2,
          forallb isspace w1 = true /\ forallb isspace w2 = true
          /\ respaced s (w1 ++ normalise s ++ w2))
      /\ capitalised (normalise s) (auto_capitalise s))
  /\ auto_capitalise (str "hello. i went to NASA.")
     = str "Hello. I went to NASA.".
Proof.
  split; [|vm_compute; reflexivity].
  intros s _. rewrite auto_capitalise_scan. split; [|split].
  - destruct (strip_split (re_sub terminal_spacing s))
      as [w1 [w2 [E [F1 F2]]]].
    exists w1, w2. fold (normalise s) in E. rewrite <- E.
    repeat split; try assumption. apply respaced_scan.
  - apply length_cap_scan.
  - intros i. apply nth_cap_scan.
Qed.

Lemma auto_capitalise_touches_sentence_starts_only_witness :
  capitalised (normalise (str " one.two  ? three "))
              (auto_capitalise (str " one.two  ? three ")).
Proof.
  refine (proj2 (proj1 auto_capitalise_touches_sentence_starts_only
                   (str " one.two  ? three ") _)).
  vm_compute. reflexivity.
Defined.

Lemma respaced_no_terminal s n :
  respaced s n -> forallb (fun c => negb (is_terminal c)) s = true -> n = s.
Proof.
  induction 1 as [|c s t _ IH|w1 c w2 s t _ Hc _ _ _]; intros H.
  - reflexivity.
  - simpl in H. apply andb_true_iff in H as [_ H]. now rewrite IH.
  - rewrite forallb_app in H. apply andb_true_iff in H as [_ H].
    simpl in H. rewrite Hc in H. discriminate.
Qed.

(** C8, as stated, fails: white space at the beginning of a text is
    removed although no terminal is near it, so the result is not the
    text respaced around terminals with its sentence starts in upper
    case. *)
Lemma auto_capitalise_strips_leading_space :
  auto_capitalise (str "  hello") = str "Hello"
  /\ ~ exists n, respaced (str "  hello") n
                 /\ capitalised n (auto_capitalise (str "  hello")).
Proof.
  split; [vm_compute; reflexivity|].
  intros [n [Hr [Hl _]]].
  apply respaced_no_terminal in Hr; [|vm_compute; reflexivity].
  subst n. vm_compute in Hl. discriminate.
Qed.

(** C4: the worked example of the two transforms, and the keyword in
    two casings. *)
Theorem normalisation_examples :
  punctuate (str "hello comma world full stop how are you question mark")
  = str "hello, world. how are you?"
  /\ auto_capitalise (str "hello, world. how are you?")
     = str "Hello, world. How are you?"
  /\ punctuate (str "full STOP") = str "."
  /\ punctuate (str "full stop") = str ".".
Proof.
  vm_compute. repeat split.
Qed.

(* ------------------------------------------------------------------ *)
(** ** Further properties of [punctuate] *)

Lemma gentle_length m :
  gentle m -> forall s prev, length (sub_at m prev s) <= length s.
Proof.
  intros G. pose proof (gentle_consuming m G) as Hm.
  induction s as [s IH] using text_length_ind. intros prev.
  destruct s as [|c s]; [reflexivity|].
  rewrite (sub_at_cons m Hm).
  destruct (m prev (c :: s)) as [h|] eqn:E.
  - destruct (gentle_repl m G _ _ _ E) as [r [Er _]].
    destruct (gentle_span m G _ _ _ E) as [u Eu].
    pose proof (Hm _ _ _ E) as Hlen.
    specialize (IH (rest h) Hlen (Some (last_char h))).
    rewrite Er. simpl in *. lia.
  - specialize (IH s ltac:(simpl; lia) (Some c)). simpl. lia.
Qed.

Lemma substitute_all_length rs :
  forallb rule_ok rs = true ->
  forall s, length (substitute_all rs s) <= length s.
Proof.
  induction rs as [|r rs IH]; intros Hrs s; [reflexivity|].
  simpl in Hrs. apply andb_true_iff in Hrs as [Hr Hrs].
  destruct (rule_ok_inv r Hr) as [Hk Hs].
  change (substitute_all (r :: rs) s)
    with (substitute_all rs (re_sub (keyword (fst r) (snd r)) s)).
  pose proof (IH Hrs (re_sub (keyword (fst r) (snd r)) s)).
  pose proof (gentle_length _ (gentle_keyword _ _ Hk Hs) s None).
  unfold sub_at in *. unfold re_sub in *. lia.
Qed.

Lemma strip_length s : length (strip s) <= length s.
Proof.
  destruct (strip_split s) as [w1 [w2 [E _]]].
  apply (f_equal (@length ascii)) in E. rewrite !length_app in E. lia.
Qed.

(** X2: the result of [punctuate] is never longer than the text. *)
Theorem punctuate_never_longer :
  forall s : text, length (punctuate s) <= length s.
Proof.
  intros s. rewrite punctuate_eq.
  pose proof (strip_length
                (re_sub space_before_punct (substitute_all replacements s))).
  pose proof (gentle_length _ gentle_space_before_punct
                (substitute_all replacements s) None) as H1.
  fold (re_sub space_before_punct (substitute_all replacements s)) in H1.
  unfold sub_at in H1.
  fold (re_sub space_before_punct (substitute_all replacements s)) in H1.
  pose proof (substitute_all_length replacements replacements_ok s).
  lia.
Qed.

Lemma blank_no_keyword kw sym s :
  spoken kw = true -> forallb isspace s = true ->
  forall prev, unmatched (keyword kw sym) prev s.
Proof.
  intros Hk. induction s as [|c s IH]; intros Hs prev; [exact I|].
  simpl in Hs. apply andb_true_iff in Hs as [Hc Hs].
  split; [|now apply IH].
  destruct (keyword kw sym prev (c :: s)) as [h|] eqn:K; [|reflexivity].
  apply (keyword_inv kw sym Hk) in K as [_ [K _]]. simpl in K.
  now rewrite (space_not_word c Hc) in K.
Qed.

Lemma blank_no_class cls s :
  (forall c, cls c = true -> isspace c = false) ->
  forallb isspace s = true -> spaces_then cls s = None.
Proof.
  intros Hcls. induction s as [|c s IH]; intros Hs; [reflexivity|].
  simpl in Hs. apply andb_true_iff in Hs as [Hc Hs]. simpl.
  destruct (cls c) eqn:E; [apply Hcls in E; congruence|].
  rewrite Hc. now apply IH.
Qed.

Lemma blank_squeezed s :
  forallb isspace s = true ->
  forall prev, unmatched space_before_punct prev s.
Proof.
  induction s as [|c s IH]; intros Hs prev; [exact I|].
  simpl in Hs. apply andb_true_iff in Hs as [Hc Hs].
  split; [|now apply IH].
  unfold space_before_punct. rewrite Hc.
  now rewrite (blank_no_class is_punct s punct_not_space Hs).
Qed.

Lemma lstrip_blank s : forallb isspace s = true -> lstrip s = [].
Proof.
  induction s as [|c s IH]; [reflexivity|]. simpl. intros H.
  apply andb_true_iff in H as [Hc Hs]. rewrite Hc. now apply IH.
Qed.

Lemma strip_blank s : forallb isspace s = true <-> strip s = [].
Proof.
  split.
  - intros H. unfold strip. now rewrite (lstrip_blank s H).
  - intros H. destruct (strip_split s) as [w1 [w2 [E [F1 F2]]]].
    rewrite H in E. rewrite E. simpl. now rewrite forallb_app, F1, F2.
Qed.

Lemma rules_unmatched_blank s :
  forallb isspace s = true -> rules_unmatched replacements s.
Proof.
  intros Hs. unfold rules_unmatched.
  pose proof replacements_ok as Hok. rewrite forallb_forall in Hok.
  rewrite Forall_forall. intros r Hr.
  destruct (rule_ok_inv r (Hok r Hr)) as [Hk _].
  now apply blank_no_keyword.
Qed.

(** X1: a text of white space only, the empty text among them, is
    turned into the empty text by [punctuate]. *)
Theorem punctuate_blank :
  forall s : text, forallb isspace s = true -> punctuate s = [].
Proof.
  intros s Hs. rewrite punctuate_eq.
  rewrite (substitute_all_id _ _ (rules_unmatched_blank s Hs)).
  unfold re_sub. fold (sub_at space_before_punct None s).
  rewrite (sub_at_unmatched _ _ _ (blank_squeezed s Hs None)).
  now apply strip_blank.
Qed.

Lemma punctuate_blank_witness :
  punctuate [" "%char; "009"%char; "010"%char; " "%char] = [].
Proof.
  apply (punctuate_blank [" "%char; "009"%char; "010"%char; " "%char]).
  vm_compute. reflexivity.
Defined.

Lemma char_before_cons x u :
  char_before (x :: u)
  = match char_before u with
    | Some c => Some c
    | None => Some x
    end.
Proof.
  unfold char_before. simpl. now destruct (rev u).
Qed.

Lemma unmatched_at m u :
  forall prev v,
    unmatched m prev (u ++ v) -> v <> [] ->
    m (match char_before u with Some c => Some c | None => prev end) v = None.
Proof.
  induction u as [|x u IH]; intros prev v H Hv.
  - destruct v as [|c v]; [congruence|]. now destruct H.
  - destruct H as [_ H]. rewrite char_before_cons.
    specialize (IH (Some x) v H Hv). now destruct (char_before u).
Qed.

Lemma keyword_nil kw sym prev :
  spoken kw = true -> keyword kw sym prev [] = None.
Proof.
  intros Hk. destruct (keyword kw sym prev []) as [h|] eqn:K; [|reflexivity].
  now apply (keyword_inv kw sym Hk) in K as [_ [K _]].
Qed.

(** X3: in the result of [punctuate] no rule matches at any position:
    however the result is cut in two, [\b<keyword>\b] does not match at
    the cut. *)
Theorem punctuate_leaves_no_keyword :
  forall (s u v : text) (kw : text) (sym : ascii),
    In (kw, sym) replacements ->
    punctuate s = u ++ v ->
    keyword kw sym (char_before u) v = None.
Proof.
  intros s u v kw sym Hin E.
  pose proof replacements_ok as Hok. rewrite forallb_forall in Hok.
  destruct (rule_ok_inv _ (Hok _ Hin)) as [Hk _]. simpl in Hk.
  destruct v as [|c v]; [now apply keyword_nil|].
  destruct (punctuate_normal s) as [H _].
  unfold rules_unmatched in H. rewrite Forall_forall in H.
  specialize (H _ Hin). simpl in H. rewrite E in H.
  apply unmatched_at in H; [|discriminate].
  now destruct (char_before u).
Qed.

Lemma punctuate_leaves_no_keyword_witness :
  keyword (str "full stop") "." (char_before (str "a"))
    (str ". b full. stop") = None.
Proof.
  apply (punctuate_leaves_no_keyword (str "a full stop b full full stop stop")
           (str "a") (str ". b full. stop") (str "full stop") ".").
  - vm_compute. tauto.
  - vm_compute. reflexivity.
Defined.

(** X4: the result of [punctuate] has no white space at either end and
    no white space character directly before one of [, . ! ?]. *)
Theorem punctuate_result_tidy :
  forall s : text,
    strip (punctuate s) = punctuate s
    /\ forall u c p v,
        punctuate s = u ++ c :: p :: v ->
        isspace c = true -> is_punct p = false.
Proof.
  intros s. destruct (punctuate_normal s) as [_ [H [H1 H2]]].
  split; [now apply strip_id|].
  intros u c p v E Hc. rewrite E in H.
  apply unmatched_at in H; [|discriminate].
  unfold space_before_punct in H. rewrite Hc in H. simpl in H.
  destruct (is_punct p); [discriminate|reflexivity].
Qed.

Lemma punctuated_unchanged s : punctuated s -> punctuate s = s.
Proof.
  intros [H1 [H2 [H3 H4]]]. rewrite punctuate_eq.
  rewrite (substitute_all_id _ _ H1).
  unfold re_sub. fold (sub_at space_before_punct None s).
  rewrite (sub_at_unmatched _ _ _ H2). now apply strip_id.
Qed.

(** X5: the texts that [punctuate] returns unchanged are exactly those
    in which no rule matches, no white space run ends in a punctuation
    sign and nothing is to strip. *)
Theorem punctuate_fixed_points :
  forall s : text, punctuate s = s <-> punctuated s.
Proof.
  intros s. split.
  - intros E. unfold punctuated. rewrite <- E. apply punctuate_normal.
  - apply punctuated_unchanged.
Qed.

(* ------------------------------------------------------------------ *)
(** ** [punctuate] on the same text in another letter case *)

Lemma lower_isspace c : isspace (lower c) = isspace c.
Proof.
  enumerate (fun c => Bool.eqb (isspace (lower c)) (isspace c)) c as E.
  now apply eqb_prop.
Qed.

Lemma lower_is_punct c : is_punct (lower c) = is_punct c.
Proof.
  enumerate (fun c => Bool.eqb (is_punct (lower c)) (is_punct c)) c as E.
  now apply eqb_prop.
Qed.

Lemma same_isspace c c' : lower c = lower c' -> isspace c = isspace c'.
Proof. intros H. now rewrite <- (lower_isspace c), H, lower_isspace. Qed.

Lemma same_is_punct c c' : lower c = lower c' -> is_punct c = is_punct c'.
Proof. intros H. now rewrite <- (lower_is_punct c), H, lower_is_punct. Qed.

Lemma same_is_word c c' : lower c = lower c' -> is_word c = is_word c'.
Proof. intros H. now rewrite <- (lower_word c), H, lower_word. Qed.

Lemma same_ci_eq p c c' : lower c = lower c' -> ci_eq p c = ci_eq p c'.
Proof. intros H. unfold ci_eq. now rewrite H. Qed.

Lemma same_word_at o o' : same_letter o o' -> word_at o = word_at o'.
Proof.
  destruct o as [c|], o' as [c'|]; try discriminate; [|reflexivity].
  intros H. inversion H. now apply same_is_word.
Qed.

Lemma same_letters_hd s s' :
  same_letters s s' -> same_letter (hd_error s) (hd_error s').
Proof.
  destruct s, s'; try discriminate; [reflexivity|].
  intros H. inversion H. unfold same_letter. simpl. congruence.
Qed.

Lemma same_letters_cons_inv c s c' s' :
  same_letters (c :: s) (c' :: s') -> lower c = lower c' /\ same_letters s s'.
Proof. intros H. inversion H. now split. Qed.

Lemma same_letters_nil_l s : same_letters [] s -> s = [].
Proof. destruct s; [reflexivity|discriminate]. Qed.

Lemma same_letters_length s s' : same_letters s s' -> length s = length s'.
Proof.
  intros H. apply (f_equal (@length ascii)) in H. now rewrite !length_map in H.
Qed.

Lemma match_literal_case lit :
  forall l l' s s',
    same_letter l l' -> same_letters s s' ->
    match match_literal lit l s, match_literal lit l' s' with
    | Some (a, r), Some (a', r') => same_letter a a' /\ same_letters r r'
    | None, None => True
    | _, _ => False
    end.
Proof.
  induction lit as [|p lit IH]; intros l l' s s' Hl Hs; [now split|].
  destruct s as [|c s].
  - apply same_letters_nil_l in Hs. now subst.
  - destruct s' as [|c' s']; [discriminate|].
    apply same_letters_cons_inv in Hs as [Hc Hs]. simpl.
    rewrite (same_ci_eq p c c' Hc). destruct (ci_eq p c'); [|exact I].
    apply IH; [|assumption]. unfold same_letter. simpl. congruence.
Qed.

Lemma case_blind_keyword kw sym : case_blind (keyword kw sym).
Proof.
  intros prev prev' s s' Hp Hs. unfold keyword, word_boundary.
  rewrite (same_word_at _ _ Hp), (same_word_at _ _ (same_letters_hd _ _ Hs)).
  destruct (xorb (word_at prev') (word_at (hd_error s'))); [|exact I].
  pose proof (match_literal_case kw prev prev' s s' Hp Hs) as H.
  destruct (match_literal kw prev s) as [[a r]|],
           (match_literal kw prev' s') as [[a' r']|];
    try contradiction; [|exact I].
  destruct H as [Ha Hr].
  destruct a as [l|], a' as [l'|]; try discriminate; [|exact I].
  rewrite (same_word_at (Some l) (Some l') Ha),
    (same_word_at _ _ (same_letters_hd _ _ Hr)).
  destruct (xorb (word_at (Some l')) (word_at (hd_error r'))); [|exact I].
  cbn [repl last_char rest]. repeat split; [|assumption]. now inversion Ha.
Qed.

Lemma spaces_then_case cls :
  (forall c c', lower c = lower c' -> cls c = cls c') ->
  forall s s',
    same_letters s s' ->
    match spaces_then cls s, spaces_then cls s' with
    | Some (p, r), Some (p', r') => lower p = lower p' /\ same_letters r r'
    | None, None => True
    | _, _ => False
    end.
Proof.
  intros Hcls. induction s as [|c s IH]; intros s' Hs.
  - apply same_letters_nil_l in Hs. now subst.
  - destruct s' as [|c' s']; [discriminate|].
    apply same_letters_cons_inv in Hs as [Hc Hs]. simpl.
    rewrite (Hcls c c' Hc), (same_isspace c c' Hc).
    destruct (cls c'); [now split|].
    destruct (isspace c'); [now apply IH|exact I].
Qed.

Lemma case_blind_space_before_punct : case_blind space_before_punct.
Proof.
  intros prev prev' s s' _ Hs. unfold space_before_punct.
  destruct s as [|c s].
  - apply same_letters_nil_l in Hs. now subst.
  - destruct s' as [|c' s']; [discriminate|].
    apply same_letters_cons_inv in Hs as [Hc Hs].
    rewrite (same_isspace c c' Hc). destruct (isspace c'); [|exact I].
    pose proof (spaces_then_case is_punct same_is_punct s s' Hs) as H.
    destruct (spaces_then is_punct s) as [[p r]|],
             (spaces_then is_punct s') as [[p' r']|];
      try contradiction; [|exact I].
    destruct H as [H1 H2]. cbn [repl last_char rest].
    repeat split; try assumption. unfold same_letters. simpl. congruence.
Qed.

(** A scan with a case-blind pattern is case-blind. *)
Lemma sub_at_case m :
  case_blind m -> consuming m ->
  forall s s' prev prev',
    same_letter prev prev' -> same_letters s s' ->
    same_letters (sub_at m prev s) (sub_at m prev' s').
Proof.
  intros Hb Hm. induction s as [s IH] using text_length_ind.
  intros s' prev prev' Hp Hs. destruct s as [|c s].
  - apply same_letters_nil_l in Hs. now subst.
  - destruct s' as [|c' s']; [discriminate|].
    rewrite !(sub_at_cons m Hm).
    pose proof (Hb prev prev' (c :: s) (c' :: s') Hp Hs) as H.
    destruct (m prev (c :: s)) as [h|] eqn:E,
             (m prev' (c' :: s')) as [h'|];
      try contradiction.
    + destruct H as [H1 [H2 H3]]. unfold same_letters in *.
      rewrite !map_app, H1. f_equal.
      apply IH; [now apply Hm in E| |assumption].
      unfold same_letter. simpl. congruence.
    + apply same_letters_cons_inv in Hs as [Hc Hs].
      unfold same_letters in *. simpl. rewrite Hc. f_equal.
      apply IH; [simpl; lia| |assumption].
      unfold same_letter. simpl. congruence.
Qed.

Lemma lstrip_case s :
  forall s', same_letters s s' -> same_letters (lstrip s) (lstrip s').
Proof.
  induction s as [|c s IH]; intros s' Hs.
  - apply same_letters_nil_l in Hs. now subst.
  - destruct s' as [|c' s']; [discriminate|].
    pose proof Hs as Hcs. apply same_letters_cons_inv in Hs as [Hc Hs].
    simpl. rewrite (same_isspace c c' Hc).
    destruct (isspace c'); [now apply IH|assumption].
Qed.

Lemma rstrip_case s :
  forall s', same_letters s s' -> same_letters (rstrip s) (rstrip s').
Proof.
  induction s as [|c s IH]; intros s' Hs.
  - apply same_letters_nil_l in Hs. now subst.
  - destruct s' as [|c' s']; [discriminate|].
    apply same_letters_cons_inv in Hs as [Hc Hs].
    rewrite !rstrip_cons. specialize (IH s' Hs).
    rewrite (same_isspace c c' Hc).
    destruct (rstrip s) as [|d r], (rstrip s') as [|d' r'];
      try discriminate.
    + destruct (isspace c'); [reflexivity|].
      unfold same_letters. simpl. congruence.
    + unfold same_letters in *. simpl in *. congruence.
Qed.

Lemma substitute_all_case rs :
  forallb rule_ok rs = true ->
  forall s s',
    same_letters s s' ->
    same_letters (substitute_all rs s) (substitute_all rs s').
Proof.
  induction rs as [|r rs IH]; intros Hrs s s' Hs; [assumption|].
  simpl in Hrs. apply andb_true_iff in Hrs as [Hr Hrs].
  destruct (rule_ok_inv r Hr) as [Hk Hsym].
  change (substitute_all (r :: rs) s)
    with (substitute_all rs (re_sub (keyword (fst r) (snd r)) s)).
  change (substitute_all (r :: rs) s')
    with (substitute_all rs (re_sub (keyword (fst r) (snd r)) s')).
  apply IH; [assumption|].
  apply (sub_at_case _ (case_blind_keyword _ _)
           (gentle_consuming _ (gentle_keyword _ _ Hk Hsym)));
    [reflexivity|assumption].
Qed.

Lemma punctuate_same_letters s s' :
  same_letters s s' -> same_letters (punctuate s) (punctuate s').
Proof.
  intros H. rewrite !punctuate_eq. unfold strip.
  apply rstrip_case, lstrip_case.
  apply (sub_at_case _ case_blind_space_before_punct
           consuming_space_before_punct); [reflexivity|].
  now apply substitute_all_case; [apply replacements_ok|].
Qed.

(** X6: two texts that differ only in the case of letters are turned by
    [punctuate] into results that differ only in the case of letters: the
    same keywords are replaced at the same places, in whatever case they
    are written. *)
Theorem punctuate_case_blind :
  forall s s' : text,
    same_letters s s' -> same_letters (punctuate s) (punctuate s').
Proof.
  intros s s'. apply punctuate_same_letters.
Qed.

Lemma punctuate_case_blind_witness :
  same_letters (punctuate (str "Hello COMMA world Full Stop"))
               (punctuate (str "hello comma World full stop")).
Proof.
  apply (punctuate_case_blind (str "Hello COMMA world Full Stop")
           (str "hello comma World full stop")).
  vm_compute. reflexivity.
Defined.

(* ------------------------------------------------------------------ *)
(** ** [punctuate] on a single word *)

Lemma match_literal_whole lit :
  forall l s a,
    match_literal lit l s = Some (a, []) -> same_letters s lit.
Proof.
  induction lit as [|p lit IH]; intros l s a H.
  - simpl in H. now inversion H.
  - destruct s as [|c s]; [discriminate|]. simpl in H.
    destruct (ci_eq p c) eqn:E; [|discriminate].
    unfold ci_eq in E. apply Ascii.eqb_eq in E.
    unfold same_letters in *. simpl. rewrite E. f_equal. now apply (IH _ _ _ H).
Qed.

Lemma match_literal_suffix lit :
  forall l s a r, match_literal lit l s = Some (a, r) -> exists u, s = u ++ r.
Proof.
  induction lit as [|p lit IH]; intros l s a r H.
  - simpl in H. inversion H. now exists [].
  - destruct s as [|c s]; [discriminate|]. simpl in H.
    destruct (ci_eq p c); [|discriminate].
    destruct (IH _ _ _ _ H) as [u E]. exists (c :: u). now rewrite E.
Qed.

(** In a text of word characters only, a keyword can only match the
    whole text. *)
Lemma word_text_match kw sym s h :
  spoken kw = true -> forallb is_word s = true ->
  keyword kw sym None s = Some h -> same_letters s kw.
Proof.
  intros Hk Hs K.
  apply (keyword_inv kw sym Hk) in K as [_ [_ [M [_ [Hr _]]]]].
  destruct (match_literal_suffix _ _ _ _ _ M) as [u E].
  destruct (rest h) as [|d r] eqn:Er.
  - now apply match_literal_whole in M.
  - rewrite E, forallb_app in Hs. apply andb_true_iff in Hs as [_ Hs].
    simpl in Hs, Hr. rewrite Hr in Hs. discriminate.
Qed.

Lemma word_text_unmatched kw sym s :
  spoken kw = true -> forallb is_word s = true ->
  forall prev, word_at prev = true -> unmatched (keyword kw sym) prev s.
Proof.
  intros Hk. induction s as [|c s IH]; intros Hs prev Hp; [exact I|].
  simpl in Hs. apply andb_true_iff in Hs as [Hc Hs].
  split; [|now apply IH].
  destruct (keyword kw sym prev (c :: s)) as [h|] eqn:K; [|reflexivity].
  apply (keyword_inv kw sym Hk) in K as [K _]. congruence.
Qed.

Lemma word_text_squeezed s :
  forallb is_word s = true ->
  forall prev, unmatched space_before_punct prev s.
Proof.
  induction s as [|c s IH]; intros Hs prev; [exact I|].
  simpl in Hs. apply andb_true_iff in Hs as [Hc Hs].
  split; [|now apply IH].
  unfold space_before_punct. destruct (isspace c) eqn:E; [|reflexivity].
  now rewrite (space_not_word c E) in Hc.
Qed.

Lemma word_text_clean s :
  forallb is_word s = true -> starts_clean s = true /\ ends_clean s = true.
Proof.
  induction s as [|c s IH]; intros Hs; [now split|].
  simpl in Hs. apply andb_true_iff in Hs as [Hc Hs].
  assert (Ec : isspace c = false).
  { destruct (isspace c) eqn:E; [|reflexivity].
    now rewrite (space_not_word c E) in Hc. }
  split; [simpl; now rewrite Ec|].
  destruct s as [|d s]; [simpl; now rewrite Ec|].
  rewrite ends_clean_cons. now apply IH.
Qed.

Lemma same_letters_word s s' :
  same_letters s s' -> forallb is_word s = forallb is_word s'.
Proof.
  revert s'. induction s as [|c s IH]; intros s' H.
  - apply same_letters_nil_l in H. now subst.
  - destruct s' as [|c' s']; [discriminate|].
    apply same_letters_cons_inv in H as [Hc H]. simpl.
    now rewrite (same_is_word c c' Hc), (IH s' H).
Qed.

Lemma lower_comma c : lower c = ","%char -> c = ","%char.
Proof.
  intros H.
  enumerate (fun c => implb (Ascii.eqb (lower c) ",") (Ascii.eqb c ",")) c as E.
  rewrite H in E. now apply Ascii.eqb_eq.
Qed.

(** X7: a text made of word characters only (one word, whatever its
    length) is returned unchanged by [punctuate], unless it is the word
    [comma] in some letter case, which becomes [,]. *)
Theorem punctuate_single_word :
  forall s : text,
    forallb is_word s = true ->
    (same_letters s (str "comma") /\ punctuate s = str ",")
    \/ (~ same_letters s (str "comma") /\ punctuate s = s).
Proof.
  intros s Hs.
  destruct (list_eq_dec ascii_dec (map lower s) (map lower (str "comma")))
    as [E|N].
  - left. split; [exact E|].
    pose proof (punctuate_same_letters s (str "comma") E) as H.
    assert (Ec : punctuate (str "comma") = str ",") by (vm_compute; reflexivity).
    rewrite Ec in H. unfold same_letters in H.
    destruct (punctuate s) as [|c [|d t]]; try discriminate.
    inversion H as [Hc]. now rewrite (lower_comma c Hc).
  - right. split; [exact N|]. apply punctuated_unchanged.
    destruct (word_text_clean s Hs) as [H1 H2].
    repeat split; try assumption; [|now apply word_text_squeezed].
    unfold rules_unmatched. rewrite Forall_forall. intros [kw sym] Hin.
    pose proof replacements_ok as Hok. rewrite forallb_forall in Hok.
    destruct (rule_ok_inv _ (Hok _ Hin)) as [Hk _]. cbn [fst snd] in *.
    destruct s as [|c s]; [exact I|].
    split.
    + destruct (keyword kw sym None (c :: s)) as [h|] eqn:K; [|reflexivity].
      pose proof (word_text_match kw sym _ h Hk Hs K) as Hw.
      pose proof (same_letters_word _ _ Hw) as Hww. rewrite Hs in Hww.
      simpl in Hin.
      destruct Hin as [Hin|[Hin|[Hin|[Hin|[Hin|[]]]]]];
        inversion Hin; subst kw; try (vm_compute in Hww; discriminate).
      contradiction.
    + simpl in Hs. apply andb_true_iff in Hs as [Hc Hs].
      now apply word_text_unmatched.
Qed.

Lemma punctuate_single_word_witness :
  (same_letters (str "commas") (str "comma")
   /\ punctuate (str "commas") = str ",")
  \/ (~ same_letters (str "commas") (str "comma")
      /\ punctuate (str "commas") = str "commas").
Proof.
  apply (punctuate_single_word (str "commas")).
  vm_compute. reflexivity.
Defined.

(* ------------------------------------------------------------------ *)
(** ** Further properties of [auto_capitalise] *)

Lemma blank_no_terminal s :
  forallb isspace s = true ->
  forall prev, unmatched terminal_spacing prev s.
Proof.
  induction s as [|c s IH]; intros Hs prev; [exact I|].
  split; [|simpl in Hs; apply andb_true_iff in Hs as [_ Hs]; now apply IH].
  unfold terminal_spacing.
  now rewrite (blank_no_class is_terminal (c :: s) terminal_not_space Hs).
Qed.

(** X8: a text of white space only, the empty text among them, is
    turned into the empty text by [auto_capitalise]. *)
Theorem auto_capitalise_blank :
  forall s : text, forallb isspace s = true -> auto_capitalise s = [].
Proof.
  intros s Hs. rewrite auto_capitalise_scan.
  unfold normalise, re_sub. fold (sub_at terminal_spacing None s).
  rewrite (sub_at_unmatched _ _ _ (blank_no_terminal s Hs None)).
  apply strip_blank in Hs. now rewrite Hs.
Qed.

Lemma auto_capitalise_blank_witness :
  auto_capitalise [" "%char; "010"%char; "009"%char] = [].
Proof.
  apply (auto_capitalise_blank [" "%char; "010"%char; "009"%char]).
  vm_compute. reflexivity.
Defined.

Lemma auto_capitalise_normal s : normal (auto_capitalise s).
Proof.
  rewrite auto_capitalise_scan. apply normal_cap_scan, normalise_normal.
Qed.

Lemma terminal_not_blank t : is_terminal t = true -> Ascii.eqb t " " = false.
Proof.
  intros H. apply Ascii.eqb_neq. intros E. subst t. discriminate.
Qed.

Lemma shaped_after_terminal u :
  forall q t v,
    shaped q (u ++ t :: v) = true -> is_terminal t = true ->
    shaped AfterTerminal v = true.
Proof.
  induction u as [|x u IH]; intros q t v H Ht.
  - destruct q; simpl in H;
      rewrite ?Ht, ?(after_terminal t Ht), ?(terminal_not_blank t Ht) in H;
      try discriminate; try assumption.
    now apply andb_true_iff in H as [_ H].
  - destruct q; simpl in H;
      try (apply andb_true_iff in H as [_ H]); now apply (IH _ _ _ H).
Qed.

(** X9: the result of [auto_capitalise] has no white space at either
    end, and each of its terminals is its last character or is followed
    by exactly one space and then by a character that is no white
    space. *)
Theorem auto_capitalise_result_spacing :
  forall s : text,
    strip (auto_capitalise s) = auto_capitalise s
    /\ forall u t v,
        auto_capitalise s = u ++ t :: v -> is_terminal t = true ->
        v = [] \/ exists c v', v = " "%char :: c :: v' /\ isspace c = false.
Proof.
  intros s. destruct (auto_capitalise_normal s) as [H [H1 H2]].
  split; [now apply strip_id|].
  intros u t v E Ht. rewrite E in H, H2.
  apply shaped_after_terminal in H; [|assumption].
  destruct v as [|d v]; [now left|right].
  simpl in H. apply andb_true_iff in H as [Hd H].
  apply Ascii.eqb_eq in Hd. subst d.
  rewrite ends_clean_app, ends_clean_cons in H2.
  destruct v as [|c v']; [discriminate|].
  exists c, v'. split; [reflexivity|].
  simpl in H. apply andb_true_iff in H as [H _]. now apply negb_true_iff.
Qed.

Lemma auto_capitalise_scan_self s :
  cap_scan SentenceStart (auto_capitalise s) = auto_capitalise s.
Proof.
  rewrite auto_capitalise_scan. apply cap_scan_idempotent.
Qed.

Lemma starts_modelled_nth n :
  forall st i,
    starts_modelled st n = true -> starts_sentence_from st n i = true ->
    upper_modelled (nth i n " "%char) = true.
Proof.
  induction n as [|c n IH]; intros st i Hm Hs.
  - now destruct i.
  - simpl in Hm. apply andb_true_iff in Hm as [Hc Hm].
    destruct i as [|i].
    + simpl in Hs. now rewrite Hs in Hc.
    + rewrite starts_sentence_from_cons in Hs. now apply (IH _ _ Hm Hs).
Qed.

(** X10: on every text whose sentence starts have a modelled
    upper-case form, in the result of [auto_capitalise] the first
    character and every character that follows a terminal and a white
    space character is its own upper-case form, and is a character whose
    upper-case form is modelled. *)
Theorem auto_capitalise_starts_in_upper :
  forall (s : text) (i : nat),
    upper_faithful s = true ->
    starts_sentence (auto_capitalise s) i = true ->
    upper_modelled (nth i (auto_capitalise s) " "%char) = true
    /\ upper (nth i (auto_capitalise s) " "%char)
       = nth i (auto_capitalise s) " "%char.
Proof.
  intros s i Hf H. split.
  - apply upper_faithful_auto_capitalise in Hf. unfold upper_faithful in Hf.
    rewrite (normalise_id _ (auto_capitalise_normal s)) in Hf.
    now apply (starts_modelled_nth _ SentenceStart).
  - pose proof (nth_cap_scan (auto_capitalise s) SentenceStart i) as E.
    rewrite auto_capitalise_scan_self in E.
    unfold starts_sentence in H. rewrite H in E. now symmetry.
Qed.

Lemma auto_capitalise_starts_in_upper_witness :
  upper (nth 4 (auto_capitalise (str "hi. there")) " "%char)
  = nth 4 (auto_capitalise (str "hi. there")) " "%char.
Proof.
  refine (proj2 (auto_capitalise_starts_in_upper (str "hi. there") 4 _ _));
    vm_compute; reflexivity.
Defined.

Lemma filter_blank w : forallb isspace w = true -> filter nonspace w = [].
Proof.
  induction w as [|c w IH]; [reflexivity|]. simpl. intros H.
  apply andb_true_iff in H as [Hc H]. unfold nonspace at 1.
  rewrite Hc. now apply IH.
Qed.

Lemma respaced_nonspace s t :
  respaced s t -> filter nonspace t = filter nonspace s.
Proof.
  induction 1 as [|c s t _ IH|w1 c w2 s t F1 Hc F2 _ IH].
  - reflexivity.
  - simpl. now rewrite IH.
  - assert (H1 : nonspace c = true)
      by (unfold nonspace; now rewrite (terminal_not_space c Hc)).
    assert (H2 : nonspace " " = false) by reflexivity.
    rewrite !filter_app, (filter_blank w1 F1), (filter_blank w2 F2).
    cbn [filter app]. rewrite H1, H2. cbn [app]. now rewrite IH.
Qed.

Lemma normalise_nonspace s :
  filter nonspace (normalise s) = filter nonspace s.
Proof.
  destruct (strip_split (re_sub terminal_spacing s)) as [w1 [w2 [E [F1 F2]]]].
  fold (normalise s) in E.
  rewrite <- (respaced_nonspace s _ (respaced_scan s None)).
  unfold sub_at. fold (re_sub terminal_spacing s). rewrite E.
  rewrite !filter_app, (filter_blank w1 F1), (filter_blank w2 F2).
  now rewrite app_nil_r.
Qed.

Lemma lower_upper c : lower (upper c) = lower c.
Proof.
  enumerate (fun c => Ascii.eqb (lower (upper c)) (lower c)) c as E.
  now apply Ascii.eqb_eq.
Qed.

Lemma lower_cap_char st c : lower (cap_char st c) = lower c.
Proof. destruct st; simpl; [apply lower_upper|reflexivity..]. Qed.

Lemma cap_scan_letters n :
  forall st,
    map lower (filter nonspace (cap_scan st n))
    = map lower (filter nonspace n).
Proof.
  induction n as [|c n IH]; intros st; [reflexivity|].
  assert (E : nonspace (cap_char st c) = nonspace c)
    by (unfold nonspace; now rewrite cap_char_space).
  cbn [cap_scan filter]. rewrite E.
  destruct (nonspace c); [|apply IH].
  cbn [map]. now rewrite lower_cap_char, IH.
Qed.

(** X11: on every text whose sentence starts have a modelled
    upper-case form, [auto_capitalise] adds, drops or moves no character
    other than white space, and changes the others in case only: without
    its white space and up to case the result is the text. *)
Theorem auto_capitalise_keeps_letters :
  forall s : text,
    upper_faithful s = true ->
    map lower (filter nonspace (auto_capitalise s))
    = map lower (filter nonspace s).
Proof.
  intros s _. rewrite auto_capitalise_scan, cap_scan_letters.
  now rewrite normalise_nonspace.
Qed.

Lemma auto_capitalise_keeps_letters_witness :
  map lower (filter nonspace (auto_capitalise (str " it is.  so ?ok")))
  = map lower (filter nonspace (str " it is.  so ?ok")).
Proof.
  apply (auto_capitalise_keeps_letters (str " it is.  so ?ok")).
  vm_compute. reflexivity.
Defined.

Lemma cap_scan_fixed s :
  cap_scan SentenceStart s = s <-> starts_in_upper s.
Proof.
  unfold starts_in_upper, starts_sentence. split.
  - intros E i H.
    pose proof (nth_cap_scan s SentenceStart i) as N.
    rewrite E, H in N. now symmetry.
  - intros H. apply (nth_ext _ _ " "%char " "%char).
    + apply length_cap_scan.
    + intros i _. rewrite nth_cap_scan.
      destruct (starts_sentence_from SentenceStart s i) eqn:E;
        [now apply H|reflexivity].
Qed.

(** X12: among the texts whose sentence starts have a modelled
    upper-case form, those that [auto_capitalise] returns unchanged are
    exactly those with normal spacing (nothing to strip, one space and
    then no white space after each terminal that is not last, no white
    space before a terminal otherwise) whose sentence starts are their
    own upper-case forms. *)
Theorem auto_capitalise_fixed_points :
  forall s : text,
    upper_faithful s = true ->
    (auto_capitalise s = s <-> normal s /\ starts_in_upper s).
Proof.
  intros s _. split.
  - intros E. split.
    + rewrite <- E. apply auto_capitalise_normal.
    + apply cap_scan_fixed. rewrite <- E.
      apply auto_capitalise_scan_self.
  - intros [Hn Hu]. rewrite auto_capitalise_scan, (normalise_id s Hn).
    now apply cap_scan_fixed.
Qed.


Lemma auto_capitalise_fixed_points_witness :
  auto_capitalise (str "Hello there. Ok") = str "Hello there. Ok"
  <-> normal (str "Hello there. Ok") /\ starts_in_upper (str "Hello there. Ok").
Proof.
  apply (auto_capitalise_fixed_points (str "Hello there. Ok")).
  vm_compute. reflexivity.
Defined.

(* ------------------------------------------------------------------ *)
(** ** The loop and the two buttons *)

Lemma stopped_count_app (a b : list event) :
  stopped_count (a ++ b) = stopped_count a + stopped_count b.
Proof.
  unfold stopped_count. now rewrite filter_app, length_app.
Qed.

Lemma loop_body_not_stopped (cfg : config) (o : outcome) :
  stopped_count (fst (loop_body cfg o)) = 0.
Proof.
  destruct o as [| | |txt [e|]]; simpl; try reflexivity;
    destruct (post_process cfg txt); reflexivity.
Qed.

(** One step emits the terminal status exactly when it leaves the loop. *)
Lemma listen_and_type_stopped (flag : bool) (p : pc) cfg o :
  stopped_count (snd (listen_and_type flag p cfg o))
  + (if running p then 0 else 1)
  = if running (fst (listen_and_type flag p cfg o)) then 0 else 1.
Proof.
  destruct p; simpl; try reflexivity.
  destruct flag; simpl; try reflexivity.
  pose proof (loop_body_not_stopped cfg o) as H.
  destruct (loop_body cfg o) as [evs [|]]; simpl in *.
  - lia.
  - rewrite stopped_count_app, H. reflexivity.
Qed.

Lemma thread_run_cons p flag cfg o sched :
  thread_run p ((flag, cfg, o) :: sched)
  = (fst (thread_run (fst (listen_and_type flag p cfg o)) sched),
     snd (listen_and_type flag p cfg o)
     ++ snd (thread_run (fst (listen_and_type flag p cfg o)) sched)).
Proof.
  simpl. destruct (listen_and_type flag p cfg o) as [p' evs]. simpl.
  destruct (thread_run p' sched). reflexivity.
Qed.

Lemma thread_run_app p s1 s2 :
  thread_run p (s1 ++ s2)
  = (fst (thread_run (fst (thread_run p s1)) s2),
     snd (thread_run p s1) ++ snd (thread_run (fst (thread_run p s1)) s2)).
Proof.
  revert p. induction s1 as [|[[flag cfg] o] s1 IH]; intros p.
  - simpl. now destruct (thread_run p s2).
  - rewrite <- app_comm_cons, !thread_run_cons, IH. simpl.
    now rewrite app_assoc.
Qed.

(** Over any life of a thread, [Stopped listening.] has been emitted once
    if the thread has returned and not at all if it has not. *)
Lemma thread_run_stopped p sched :
  stopped_count (snd (thread_run p sched)) + (if running p then 0 else 1)
  = if running (fst (thread_run p sched)) then 0 else 1.
Proof.
  revert p. induction sched as [|[[flag cfg] o] sched IH]; intros p.
  - reflexivity.
  - rewrite thread_run_cons. simpl fst. simpl snd.
    rewrite stopped_count_app.
    pose proof (listen_and_type_stopped flag p cfg o).
    pose proof (IH (fst (listen_and_type flag p cfg o))).
    lia.
Qed.

Lemma thread_run_exited sched : thread_run Exited sched = (Exited, []).
Proof.
  induction sched as [|[[flag cfg] o] sched IH]; [reflexivity|].
  rewrite thread_run_cons. simpl. now rewrite IH.
Qed.

(** C5: a [RequestError] met at the loop test with the flag set emits the
    service status, leaves the loop and emits [Stopped listening.], which
    is then the only such status of the whole run whatever is scheduled
    afterwards; an [UnknownValueError] emits its status and the thread is
    still in the loop, with no [Stopped listening.] emitted. *)
Theorem request_error_ends_loop_unknown_value_continues :
  forall (before after : list (bool * config * outcome)) (cfg : config),
    fst (thread_run Calibrating before) = Looping ->
    (let r := thread_run Calibrating
                (before ++ (true, cfg, RequestError) :: after) in
     fst r = Exited
     /\ snd r = snd (thread_run Calibrating before)
                ++ [UpdateStatus
                      "Could not connect to speech service (check internet).";
                    UpdateStatus "Stopped listening."]
     /\ stopped_count (snd r) = 1)
    /\
    (let r := thread_run Calibrating (before ++ [(true, cfg, UnknownValue)]) in
     fst r = Looping
     /\ snd r = snd (thread_run Calibrating before)
                ++ [UpdateStatus "Didn't catch that. Try again."]
     /\ stopped_count (snd r) = 0).
Proof.
  intros before after cfg Hloop.
  pose proof (thread_run_stopped Calibrating before) as Hcnt.
  rewrite Hloop in Hcnt. simpl in Hcnt.
  split; cbv zeta; rewrite thread_run_app, Hloop.
  - rewrite thread_run_cons.
    change (listen_and_type true Looping cfg RequestError)
      with (Exited,
            [UpdateStatus
               "Could not connect to speech service (check internet).";
             UpdateStatus "Stopped listening."]).
    cbn [fst snd]. rewrite thread_run_exited. cbn [fst snd].
    rewrite app_nil_r. repeat split.
    rewrite stopped_count_app. cbn. lia.
  - cbn [thread_run listen_and_type loop_body fst snd].
    rewrite app_nil_r. repeat split.
    rewrite stopped_count_app. cbn. lia.
Qed.

Lemma request_error_ends_loop_witness :
  let before := [(true, Config false true, WaitTimeout)] in
  let after := [(true, Config false true, UnknownValue)] in
  fst (thread_run Calibrating
         (before ++ (true, Config false true, RequestError) :: after)) = Exited
  /\ fst (thread_run Calibrating
            (before ++ [(true, Config false true, UnknownValue)])) = Looping.
Proof.
  pose proof (request_error_ends_loop_unknown_value_continues
                [(true, Config false true, WaitTimeout)]
                [(true, Config false true, UnknownValue)]
                (Config false true) eq_refl) as [[H _] [H' _]].
  exact (conj H H').
Defined.

(** C7: when the processed text is not empty and [pyautogui.write] raises,
    the line has already been appended to the transcript, the failure is
    reported as a status, and the thread stays in the loop; the line is
    appended first whatever the outcome of the typing. *)
Theorem typing_failure_keeps_loop_and_transcript :
  forall (cfg : config) (txt : text) (e : string),
    post_process cfg txt <> [] ->
    listen_and_type true Looping cfg (Recognised txt (Some e))
    = (Looping,
       [AppendOutputLine (post_process cfg txt);
        Write (post_process cfg txt);
        UpdateStatus ("Typing failed: " ++ e)])
    /\ forall typing_error,
        hd_error (snd (listen_and_type true Looping cfg
                         (Recognised txt typing_error)))
        = Some (AppendOutputLine (post_process cfg txt)).
Proof.
  intros cfg txt e Hne. unfold listen_and_type, loop_body.
  destruct (post_process cfg txt) as [|c t]; [contradiction|].
  split; [reflexivity|]. intros [e'|]; reflexivity.
Qed.

Lemma typing_failure_witness :
  listen_and_type true Looping (Config false true)
    (Recognised (str "hello there") (Some "no display"%string))
  = (Looping,
     [AppendOutputLine (str "Hello there");
      Write (str "Hello there");
      UpdateStatus "Typing failed: no display"]).
Proof.
  refine (proj1 (typing_failure_keeps_loop_and_transcript
                   (Config false true) (str "hello there") "no display" _)).
  vm_compute. discriminate.
Defined.

(** C10: when the processed text is empty the pass through the body emits
    nothing at all and the loop goes on. *)
Theorem empty_text_emits_nothing :
  forall (cfg : config) (txt : text) (typing_error : option string),
    post_process cfg txt = [] ->
    loop_body cfg (Recognised txt typing_error) = ([], Continue)
    /\ listen_and_type true Looping cfg (Recognised txt typing_error)
       = (Looping, []).
Proof.
  intros cfg txt typing_error H. unfold listen_and_type, loop_body.
  rewrite H. split; reflexivity.
Qed.

Lemma empty_text_witness :
  loop_body (Config true true) (Recognised (str "new line") None)
  = ([], Continue)
  /\ listen_and_type true Looping (Config true true)
       (Recognised (str "new line") None) = (Looping, []).
Proof.
  apply (empty_text_emits_nothing (Config true true) (str "new line") None).
  vm_compute. reflexivity.
Defined.

(** The flag is never assigned by a step of the loop. *)
Lemma run_thread_keeps_flag tid cfg o st :
  is_listening (run_thread tid cfg o st) = is_listening st.
Proof.
  unfold run_thread. destruct (nth_error (threads st) tid); [|reflexivity].
  now destruct (listen_and_type (is_listening st) p cfg o).
Qed.

(** A second [start] while the flag is set changes nothing but the
    status. *)
Lemma start_when_listening st :
  is_listening st = true ->
  start_listening_thread st
  = State true (listening_thread st) (threads st)
          (emitted st ++ [UpdateStatus "Already listening..."]).
Proof.
  intros H. unfold start_listening_thread. rewrite H. reflexivity.
Qed.

Lemma active_loops_app st p :
  length (filter running (threads st ++ [p]))
  = active_loops st + (if running p then 1 else 0).
Proof.
  unfold active_loops. rewrite filter_app, length_app. simpl.
  destruct (running p); reflexivity.
Qed.

(** Two [start] calls in a row from an idle state leave one more loop
    than before, not two. *)
Lemma start_twice st :
  is_listening st = false ->
  active_loops (start_listening_thread (start_listening_thread st))
  = S (active_loops st)
  /\ threads (start_listening_thread (start_listening_thread st))
     = threads (start_listening_thread st).
Proof.
  intros H. unfold start_listening_thread. rewrite H. cbn.
  split; [|reflexivity].
  unfold active_loops at 1. cbn [threads]. rewrite active_loops_app.
  unfold active_loops. cbn. lia.
Qed.

(** C3 (the code at the failing input): the loop is left through a
    [RequestError]; the thread has returned and has emitted
    [Stopped listening.], yet [is_listening] is still set, and the next
    [start] only reports [Already listening...] and starts no thread. *)
Theorem request_error_leaves_flag_set :
  let cfg := Config false true in
  let st := run initial [Start; Run 0 cfg WaitTimeout; Run 0 cfg RequestError] in
  threads st = [Exited]
  /\ active_loops st = 0
  /\ last (emitted st) (UpdateStatus "") = UpdateStatus "Stopped listening."
  /\ is_listening st = true
  /\ threads (step st Start) = [Exited]
  /\ emitted (step st Start)
     = emitted st ++ [UpdateStatus "Already listening..."].
Proof.
  vm_compute. repeat split.
Qed.

(* ------------------------------------------------------------------ *)
(** ** Further properties of the session *)

Lemma length_set_nth {A} (n : nat) (x : A) (l : list A) :
  length (set_nth n x l) = length l.
Proof.
  revert n. induction l as [|y l IH]; intros [|n]; simpl; auto.
Qed.

Lemma nth_error_set_nth_eq {A} (n : nat) (x y : A) (l : list A) :
  nth_error l n = Some y -> nth_error (set_nth n x l) n = Some x.
Proof.
  revert n. induction l as [|z l IH]; intros [|n]; simpl; try discriminate.
  - reflexivity.
  - apply IH.
Qed.

Lemma nth_error_set_nth_neq {A} (n j : nat) (x : A) (l : list A) :
  j <> n -> nth_error (set_nth n x l) j = nth_error l j.
Proof.
  revert n j. induction l as [|z l IH]; intros [|n] [|j] H; simpl;
    try reflexivity; try congruence.
  apply IH. congruence.
Qed.

Lemma run_thread_threads tid cfg o st :
  length (threads (run_thread tid cfg o st)) = length (threads st).
Proof.
  unfold run_thread. destruct (nth_error (threads st) tid); [|reflexivity].
  destruct (listen_and_type (is_listening st) p cfg o). simpl.
  apply length_set_nth.
Qed.

Lemma active_loops_le st : active_loops st <= length (threads st).
Proof. unfold active_loops. apply filter_length_le. Qed.

(** X14: as long as [stop_listening] is never called, at most one thread
    is ever started, however often [start_listening_thread] is called and
    whatever the thread does. *)
Theorem one_thread_without_stop :
  forall acts : list action,
    forallb (fun a => negb (is_stop a)) acts = true ->
    length (threads (run initial acts)) <= 1
    /\ active_loops (run initial acts) <= 1.
Proof.
  intros acts H.
  assert (G : forall st,
             (is_listening st = false /\ threads st = [])
             \/ (is_listening st = true /\ length (threads st) = 1) ->
             length (threads (run st acts)) <= 1).
  { clear -H. unfold run. induction acts as [|a acts IH]; intros st Hst.
    - simpl. destruct Hst as [[_ E]|[_ E]]; rewrite E; simpl; lia.
    - simpl in H. apply andb_true_iff in H as [Ha H].
      simpl. apply (IH H). destruct a as [| |tid cfg o]; [|discriminate|].
      + right. simpl. unfold start_listening_thread.
        destruct Hst as [[E1 E2]|[E1 E2]]; rewrite E1; simpl.
        * now rewrite E2.
        * now split.
      + simpl. rewrite run_thread_keeps_flag.
        destruct Hst as [[E1 E2]|[E1 E2]].
        * left. split; [assumption|].
          unfold run_thread. rewrite E2. now destruct tid.
        * right. now rewrite run_thread_threads. }
  specialize (G initial (or_introl (conj eq_refl eq_refl))).
  pose proof (active_loops_le (run initial acts)). lia.
Qed.

Lemma one_thread_without_stop_witness :
  length (threads (run initial
                     [Start; Run 0 (Config false true) WaitTimeout; Start;
                      Run 0 (Config false true) RequestError; Start])) <= 1.
Proof.
  refine (proj1 (one_thread_without_stop
                   [Start; Run 0 (Config false true) WaitTimeout; Start;
                    Run 0 (Config false true) RequestError; Start] _)).
  reflexivity.
Defined.

Lemma lines_typed_app a :
  forall b, lines_typed a -> lines_typed b -> lines_typed (a ++ b).
Proof.
  induction a as [a IH] using (induction_ltof1 _ (@length event)).
  unfold ltof in IH. intros b Ha Hb.
  destruct a as [|[msg|t|t] a]; simpl in *.
  - assumption.
  - apply IH; [lia|assumption..].
  - destruct Ha as [Hne Ha]. split; [assumption|].
    destruct a as [|[msg|t'|t'] a]; try contradiction.
    destruct Ha as [E Ha]. simpl. split; [assumption|].
    apply IH; [simpl; lia|assumption..].
  - contradiction.
Qed.

Lemma loop_body_lines_typed cfg o : lines_typed (fst (loop_body cfg o)).
Proof.
  destruct o as [| | |txt [e|]]; simpl; try exact I;
    destruct (post_process cfg txt) eqn:E; simpl;
    repeat split; congruence.
Qed.

Lemma listen_and_type_lines_typed flag p cfg o :
  lines_typed (snd (listen_and_type flag p cfg o)).
Proof.
  destruct p; simpl; try exact I.
  destruct flag; simpl; [|exact I].
  pose proof (loop_body_lines_typed cfg o) as H.
  destruct (loop_body cfg o) as [evs [|]]; simpl in *; [assumption|].
  apply lines_typed_app; [assumption|exact I].
Qed.

(** X16: in what a thread emits over its whole life, every transcript
    line is not empty and is directly followed by the typing of the same
    text, and nothing is typed that was not just appended. *)
Theorem thread_types_what_it_appends :
  forall (p : pc) (sched : list (bool * config * outcome)),
    lines_typed (snd (thread_run p sched)).
Proof.
  intros p sched. revert p.
  induction sched as [|[[flag cfg] o] sched IH]; intros p; [exact I|].
  rewrite thread_run_cons. cbn [snd].
  apply lines_typed_app; [apply listen_and_type_lines_typed|apply IH].
Qed.

Lemma auto_capitalise_head_upper s c tl :
  auto_capitalise s = c :: tl -> upper c = c.
Proof.
  intros E. pose proof (auto_capitalise_scan_self s) as H.
  rewrite E in H. simpl in H. injection H as H _. exact H.
Qed.

Lemma normal_tidy s : s <> [] -> normal s -> tidy_line s.
Proof. intros Hne [_ [H1 H2]]. now repeat split. Qed.

(** X17: with capitalisation switched on, every line that one pass of
    the loop appends to the transcript is not empty, has no white space
    at either end and begins with a character that is its own upper-case
    form; this for every recognised text that reaches [auto_capitalise]
    with sentence starts whose upper-case form is modelled. *)
Theorem appended_line_capitalised :
  forall (cfg : config) (txt : text) (typing_error : option string) (t : text),
    auto_capital cfg = true ->
    upper_faithful (if auto_punctuation cfg then punctuate txt else txt) = true ->
    In (AppendOutputLine t) (fst (loop_body cfg (Recognised txt typing_error))) ->
    tidy_line t
    /\ exists c tl, t = c :: tl /\ upper_modelled c = true /\ upper c = c.
Proof.
  intros cfg txt te t Hc Hf Hin. unfold loop_body in Hin.
  unfold post_process in Hin. rewrite Hc in Hin.
  remember (if auto_punctuation cfg then punctuate txt else txt) as x.
  destruct (auto_capitalise x) as [|c tl] eqn:E; [contradiction|].
  assert (Et : t = c :: tl).
  { simpl in Hin. destruct Hin as [H|[H|H]]; [now inversion H|discriminate|].
    destruct te; simpl in H; [destruct H as [H|[]]; discriminate|contradiction]. }
  subst t. split.
  - apply normal_tidy; [discriminate|]. rewrite <- E.
    apply auto_capitalise_normal.
  - exists c, tl. split; [reflexivity|]. split.
    + apply upper_faithful_auto_capitalise in Hf. unfold upper_faithful in Hf.
      rewrite (normalise_id _ (auto_capitalise_normal x)), E in Hf.
      simpl in Hf. now apply andb_true_iff in Hf as [Hf _].
    + now apply (auto_capitalise_head_upper x c tl).
Qed.

Lemma appended_line_capitalised_witness :
  tidy_line (str "Hello there. Ok")
  /\ exists c tl, str "Hello there. Ok" = c :: tl
                  /\ upper_modelled c = true /\ upper c = c.
Proof.
  apply (appended_line_capitalised (Config false true)
           (str "  hello there.ok ") None (str "Hello there. Ok")).
  - reflexivity.
  - vm_compute. reflexivity.
  - vm_compute. left. reflexivity.
Defined.

(* ------------------------------------------------------------------ *)
(** ** Reading the transcript aloud *)

Lemma strip_nonempty_tidy s : strip s <> [] -> tidy_line (strip s).
Proof.
  intros H. repeat split; [assumption|apply strip_starts|apply strip_ends].
Qed.

(** X18: [read_out_loud] calls [speak] unless the box shows white space
    only, and what it passes to [speak] is the content without the white
    space at its two ends, hence never empty. *)
Theorem read_out_loud_speaks_stripped :
  forall shown : text,
    (read_out_loud shown = None <-> forallb isspace shown = true)
    /\ forall t, read_out_loud shown = Some t ->
                 t = strip shown /\ tidy_line t.
Proof.
  intros shown. unfold read_out_loud. split.
  - rewrite strip_blank. destruct (strip shown); split; congruence.
  - intros t H. destruct (strip shown) as [|c r] eqn:E; [discriminate|].
    inversion H; subst t. split; [reflexivity|].
    rewrite <- E. apply strip_nonempty_tidy. congruence.
Qed.

Lemma rstrip_app_blank s w :
  forallb isspace w = true -> rstrip (s ++ w) = rstrip s.
Proof.
  induction w as [|x w IH] using rev_ind; intros H.
  - now rewrite app_nil_r.
  - rewrite forallb_app in H. apply andb_true_iff in H as [Hw Hx].
    simpl in Hx. rewrite andb_true_r in Hx.
    now rewrite app_assoc, rstrip_app_space, IH.
Qed.

Lemma strip_app_blank s w :
  tidy_line s -> forallb isspace w = true -> strip (s ++ w) = s.
Proof.
  intros [Hne [H1 H2]] Hw. unfold strip.
  rewrite lstrip_id by now rewrite starts_clean_app.
  rewrite rstrip_app_blank by assumption. now apply rstrip_id.
Qed.

Lemma fold_insert_line lines :
  forall box,
    fold_left insert_line lines box
    = box ++ concat (map (fun l => l ++ [newline]) lines).
Proof.
  induction lines as [|l lines IH]; intros box.
  - simpl. now rewrite app_nil_r.
  - simpl. rewrite IH. unfold insert_line. now rewrite <- !app_assoc.
Qed.

Lemma concat_join_lines lines :
  lines <> [] ->
  concat (map (fun l => l ++ [newline]) lines) = join_lines lines ++ [newline].
Proof.
  induction lines as [|l lines IH]; [congruence|]. intros _.
  destruct lines as [|l' lines].
  - simpl. now rewrite app_nil_r.
  - change (join_lines (l :: l' :: lines))
      with (l ++ [newline] ++ join_lines (l' :: lines)).
    cbn [map concat]. cbn [map concat] in IH.
    rewrite IH by discriminate. now rewrite <- !app_assoc.
Qed.

Lemma join_lines_tidy lines :
  lines <> [] -> Forall tidy_line lines -> tidy_line (join_lines lines).
Proof.
  induction lines as [|l lines IH]; [congruence|]. intros _ H.
  inversion H as [|? ? [Hne [H1 H2]] Hrest]; subst.
  destruct lines as [|l' lines]; [now repeat split|].
  change (join_lines (l :: l' :: lines))
    with (l ++ [newline] ++ join_lines (l' :: lines)).
  destruct (IH ltac:(discriminate) Hrest) as [Jne [J1 J2]].
  repeat split.
  - destruct l; [congruence|discriminate].
  - now rewrite starts_clean_app.
  - rewrite ends_clean_app. cbn [app].
    destruct (join_lines (l' :: lines)) as [|d j]; [congruence|].
    now rewrite ends_clean_cons.
Qed.

(** X19: when the box holds one or more lines appended by the loop, each
    not empty and with no white space at its ends (as they are with a
    transform switched on), [read_out_loud] speaks those lines with one
    newline between them, whatever white space the widget shows after
    them. *)
Theorem read_out_loud_speaks_lines :
  forall (lines : list text) (w : text),
    lines <> [] -> Forall tidy_line lines -> forallb isspace w = true ->
    read_out_loud (box_after lines ++ w) = Some (join_lines lines).
Proof.
  intros lines w Hne Hl Hw. unfold read_out_loud, box_after.
  rewrite fold_insert_line, concat_join_lines by assumption.
  cbn [app]. rewrite <- app_assoc.
  destruct (join_lines_tidy lines Hne Hl) as [Jne J].
  rewrite strip_app_blank;
    [|now repeat split|simpl; now rewrite Hw].
  destruct (join_lines lines); [congruence|reflexivity].
Qed.

Lemma read_out_loud_speaks_lines_witness :
  read_out_loud (box_after [str "Hello there."; str "Next line"]
                 ++ [newline])
  = Some (join_lines [str "Hello there."; str "Next line"]).
Proof.
  apply (read_out_loud_speaks_lines
           [str "Hello there."; str "Next line"] [newline]).
  - discriminate.
  - repeat constructor; discriminate.
  - reflexivity.
Defined.

(* ------------------------------------------------------------------ *)
(** ** The session with the shared microphone *)









(** What [start], [stop], [start] does while the first thread is in a
    pass: the second thread fails to enter [with mic], the first stays
    the one loop. *)
Lemma second_thread_cannot_enter :
  let cfg := Config false true in
  let ss := play opening [Start; Run 0 cfg WaitTimeout; Run 0 cfg WaitTimeout;
                          Stop; Start; Run 1 cfg WaitTimeout] in
  places ss = [InPass; Crashed] /\ loops_active ss = 1.
Proof. split; reflexivity. Qed.

(** C9 (the code at the failing input): the thread is in a pass when
    [stop] and then [start] are pressed.  The second thread fails to enter
    [with mic]; the first ends its pass, reads the flag as set at its next
    test, stays in its loop and two passes later still emits a transcript
    line; [Stopped listening.] is never emitted. *)
Theorem restart_keeps_stopped_thread_looping :
  let cfg := Config false true in
  let before :=
    play opening [Start; Run 0 cfg WaitTimeout; Run 0 cfg WaitTimeout] in
  let after :=
    play before [Stop; Start; Run 1 cfg WaitTimeout;
                 Run 0 cfg WaitTimeout; Run 0 cfg WaitTimeout;
                 Run 0 cfg (Recognised (str "hello") None);
                 Run 0 cfg WaitTimeout] in
  places before = [InPass]
  /\ places after = [InPass; Crashed]
  /\ listening after = true
  /\ events after
     = events before
       ++ [UpdateStatus "Stopping..."; UpdateStatus "Started listening...";
           AppendOutputLine (str "Hello"); Write (str "Hello")]
  /\ stopped_count (events after) = 0.
Proof.
  vm_compute. repeat split.
Qed.

Lemma thread_step_listening tid cfg o ss :
  listening (thread_step tid cfg o ss) = listening ss.
Proof.
  unfold thread_step. destruct (nth_error (places ss) tid) as [[| | | |]|];
    try reflexivity.
  - now destruct (stream_open ss).
  - now destruct (listening ss) eqn:E.
  - now destruct (loop_body cfg o) as [evs [|]].
Qed.

Lemma thread_step_other tid j cfg o ss :
  j <> tid ->
  nth_error (places (thread_step tid cfg o ss)) j = nth_error (places ss) j.
Proof.
  intros H. unfold thread_step.
  destruct (nth_error (places ss) tid) as [[| | | |]|]; try reflexivity.
  - destruct (stream_open ss); simpl; now apply nth_error_set_nth_neq.
  - destruct (listening ss); simpl; now apply nth_error_set_nth_neq.
  - destruct (loop_body cfg o) as [evs [|]]; simpl;
      now apply nth_error_set_nth_neq.
Qed.

(** With the flag clear, a step of a thread in its loop brings it one
    step nearer to its return. *)
Lemma thread_step_nearer tid cfg o ss p :
  listening ss = false ->
  nth_error (places ss) tid = Some p ->
  in_loop p = true \/ p = Returned ->
  exists q, nth_error (places (thread_step tid cfg o ss)) tid = Some q
            /\ (in_loop q = true \/ q = Returned)
            /\ steps_left q <= steps_left p - 1.
Proof.
  intros Hf Hp Hin. unfold thread_step. rewrite Hp.
  destruct p; simpl in Hin; try (destruct Hin; discriminate).
  - rewrite Hf. exists Returned. simpl.
    rewrite (nth_error_set_nth_eq _ _ AtTest _ Hp). auto.
  - destruct (loop_body cfg o) as [evs [|]]; simpl.
    + exists AtTest. rewrite (nth_error_set_nth_eq _ _ InPass _ Hp). auto.
    + exists Returned. rewrite (nth_error_set_nth_eq _ _ InPass _ Hp).
      simpl. split; [reflexivity|]. split; [now right|lia].
  - exists Returned. rewrite Hp. auto.
Qed.

Lemma stop_ends_loop acts tid :
  forall ss p,
    listening ss = false ->
    forallb (fun a => negb (is_start a)) acts = true ->
    nth_error (places ss) tid = Some p ->
    in_loop p = true \/ p = Returned ->
    steps_left p <= own_steps tid acts ->
    nth_error (places (play ss acts)) tid = Some Returned.
Proof.
  unfold play. induction acts as [|a acts IH]; intros ss p Hf Ha Hp Hin Hs.
  - simpl in *. destruct Hin as [Hin|Hin]; [|now subst].
    destruct p; simpl in *; try discriminate; lia.
  - simpl in Ha. apply andb_true_iff in Ha as [Ha1 Ha].
    destruct a as [| |t cfg o]; [discriminate| |]; simpl.
    + apply (IH (press_stop ss) p); auto.
    + simpl in Hs. destruct (Nat.eqb t tid) eqn:Et.
      * apply Nat.eqb_eq in Et. subst t.
        destruct (thread_step_nearer tid cfg o ss p Hf Hp Hin)
          as [q [Hq [Hinq Hle]]].
        apply (IH _ q); auto; [now rewrite thread_step_listening|lia].
      * apply Nat.eqb_neq in Et.
        apply (IH _ p); auto; [now rewrite thread_step_listening|].
        rewrite thread_step_other; [assumption|congruence].
Qed.

Lemma put_place ss tid p q opened evs :
  nth_error (places ss) tid = Some p ->
  nth_error (places (put tid q opened evs ss)) tid = Some q.
Proof. intros H. unfold put. simpl. now apply (nth_error_set_nth_eq _ _ p). Qed.

Lemma thread_step_at_test ss tid cfg o :
  listening ss = false -> nth_error (places ss) tid = Some AtTest ->
  thread_step tid cfg o ss
  = put tid Returned false [UpdateStatus "Stopped listening."] ss.
Proof. intros Hf Hp. unfold thread_step. now rewrite Hp, Hf. Qed.

Lemma thread_step_in_pass ss tid cfg o :
  nth_error (places ss) tid = Some InPass ->
  thread_step tid cfg o ss
  = match loop_body cfg o with
    | (evs, Continue) => put tid AtTest (stream_open ss) evs ss
    | (evs, Break) =>
        put tid Returned false (evs ++ [UpdateStatus "Stopped listening."]) ss
    end.
Proof. intros Hp. unfold thread_step. now rewrite Hp. Qed.

Lemma thread_step_returned ss tid cfg o :
  nth_error (places ss) tid = Some Returned -> thread_step tid cfg o ss = ss.
Proof. intros Hp. unfold thread_step. now rewrite Hp. Qed.

(** X15: once [is_listening] is clear and as long as
    [start_listening_thread] is not called, a thread in its loop returns
    after at most two steps of its own, whatever the other threads do in
    between: the end of the pass in flight, whose events are still
    emitted, and the next test, which emits [Stopped listening.] and
    closes the microphone. *)
Theorem stop_ends_loop_after_pass_in_flight :
  (forall (ss : session) (tid : nat) (p : place) (acts : list action),
      listening ss = false ->
      forallb (fun a => negb (is_start a)) acts = true ->
      nth_error (places ss) tid = Some p -> in_loop p = true ->
      steps_left p <= own_steps tid acts ->
      nth_error (places (play ss acts)) tid = Some Returned)
  /\ (forall (ss : session) (tid : nat) (cfg cfg' : config) (o o' : outcome),
         listening ss = false ->
         nth_error (places ss) tid = Some InPass ->
         let ss' := thread_step tid cfg' o' (thread_step tid cfg o ss) in
         events ss' = events ss ++ fst (loop_body cfg o)
                      ++ [UpdateStatus "Stopped listening."]
         /\ stream_open ss' = false)
  /\ (forall (ss : session) (tid : nat) (cfg : config) (o : outcome),
         listening ss = false ->
         nth_error (places ss) tid = Some AtTest ->
         events (thread_step tid cfg o ss)
         = events ss ++ [UpdateStatus "Stopped listening."]
         /\ stream_open (thread_step tid cfg o ss) = false).
Proof.
  split; [|split].
  - intros ss tid p acts Hf Ha Hp Hin Hs.
    apply (stop_ends_loop acts tid ss p); auto.
  - intros ss tid cfg cfg' o o' Hf Hp. cbv zeta.
    rewrite (thread_step_in_pass ss tid cfg o Hp).
    destruct (loop_body cfg o) as [evs [|]] eqn:E; cbn [fst].
    + rewrite thread_step_at_test;
        [|assumption|now apply (put_place ss tid InPass)].
      simpl. now rewrite <- app_assoc.
    + rewrite thread_step_returned by now apply (put_place ss tid InPass).
      now split.
  - intros ss tid cfg o Hf Hp. rewrite thread_step_at_test by assumption.
    now split.
Qed.

Lemma stop_ends_loop_after_pass_in_flight_witness :
  let cfg := Config false true in
  let ss := play opening [Start; Run 0 cfg WaitTimeout; Run 0 cfg WaitTimeout;
                          Stop] in
  nth_error
    (places (play ss [Run 0 cfg (Recognised (str "hello") None); Stop;
                      Run 0 cfg WaitTimeout])) 0
  = Some Returned.
Proof.
  refine (proj1 stop_ends_loop_after_pass_in_flight
            (play opening [Start; Run 0 (Config false true) WaitTimeout;
                           Run 0 (Config false true) WaitTimeout; Stop])
            0 InPass
            [Run 0 (Config false true) (Recognised (str "hello") None); Stop;
             Run 0 (Config false true) WaitTimeout] _ _ _ _ _);
    vm_compute; reflexivity.
Defined.

(** The step of [listen_and_type] in the coarser model is the test and
    the pass of [thread_step] run one after the other. *)
Lemma test_and_pass_is_one_step ss tid cfg o :
  nth_error (places ss) tid = Some AtTest ->
  let ss' :=
    if listening ss
    then thread_step tid cfg o (thread_step tid cfg o ss)
    else thread_step tid cfg o ss in
  option_map pc_of (nth_error (places ss') tid)
  = Some (fst (listen_and_type (listening ss) Looping cfg o))
  /\ events ss'
     = events ss ++ snd (listen_and_type (listening ss) Looping cfg o).
Proof.
  intros Hp. cbv zeta. destruct (listening ss) eqn:Hf.
  - assert (E1 : thread_step tid cfg o ss
                 = put tid InPass (stream_open ss) [] ss)
      by (unfold thread_step; now rewrite Hp, Hf).
    rewrite E1, thread_step_in_pass by now apply (put_place ss tid AtTest).
    cbn [listen_and_type].
    destruct (loop_body cfg o) as [evs [|]]; cbn [fst snd];
      (erewrite put_place by now apply (put_place ss tid AtTest));
      simpl; rewrite app_nil_r; now split.
  - rewrite thread_step_at_test by assumption. cbn [listen_and_type fst snd].
    rewrite (put_place ss tid AtTest) by assumption. now split.
Qed.

